(** * Utilities/Dependencies.h

    A model of the helpers that [common/include/Utilities/Dependencies.h]
    gives to every translation unit of the emulator:

    - the [tryDEBUG]/[catchDEBUG]/[tryDEVEL]/[catchDEVEL] macros (lines 26-40);
    - the operators generated by [ImplementEnumOperators] (lines 64-101);
    - [DeclareNoncopyableObject] (lines 131-136);
    - the [ScopedBool] guard (lines 144-160);
    - the size constants [_1kb] ... [_4gb] (lines 236-251).

    Definitions come first, the properties proved about them after. *)

From stdpp Require Import base numbers option list strings gmap.
From Stdlib Require Import ZArith Lia.

Local Open Scope Z_scope.

(** ** The C++ [int] *)

(** [int] is the 32-bit signed integer of the targets the emulator builds
    for.  A value is its mathematical integer together with the evidence
    that it is representable.  ISO C++ leaves signed overflow undefined; the
    arithmetic below gives the two's-complement result those targets
    compute, so that an overflowing step is visible as a wrap-around. *)
Module CInt.

(** Reduction of [z] into the range of a [w]-bit signed integer. *)
Definition swrap (w z : Z) : Z := (z + 2 ^ (w - 1)) `mod` 2 ^ w - 2 ^ (w - 1).

Definition min_signed : Z := - 2 ^ 31.
Definition max_signed : Z := 2 ^ 31 - 1.

Definition wrap (z : Z) : Z := swrap 32 z.

Record int : Type := mkint {
  to_Z : Z;
  to_Z_range : bool_decide (min_signed ≤ to_Z ≤ max_signed)
}.

Lemma swrap_range (w z : Z) :
  0 < w → - 2 ^ (w - 1) ≤ swrap w z ≤ 2 ^ (w - 1) - 1.
Proof.
  intros Hw. unfold swrap.
  assert (Hp : 2 ^ w = 2 * 2 ^ (w - 1)).
  { replace w with (Z.succ (w - 1)) at 1 by lia. rewrite Z.pow_succ_r; lia. }
  assert (Hpos : 0 < 2 ^ (w - 1)) by (apply Z.pow_pos_nonneg; lia).
  pose proof (Z.mod_pos_bound (z + 2 ^ (w - 1)) (2 ^ w)) as Hb. lia.
Qed.

Lemma swrap_id (w z : Z) :
  0 < w → - 2 ^ (w - 1) ≤ z ≤ 2 ^ (w - 1) - 1 → swrap w z = z.
Proof.
  intros Hw Hz. unfold swrap.
  assert (Hp : 2 ^ w = 2 * 2 ^ (w - 1)).
  { replace w with (Z.succ (w - 1)) at 1 by lia. rewrite Z.pow_succ_r; lia. }
  rewrite Z.mod_small; lia.
Qed.

Lemma wrap_range (z : Z) : min_signed ≤ wrap z ≤ max_signed.
Proof. unfold wrap, min_signed, max_signed. apply (swrap_range 32 z). lia. Qed.

Lemma wrap_id (z : Z) : min_signed ≤ z ≤ max_signed → wrap z = z.
Proof. unfold wrap, min_signed, max_signed. intros Hz. apply swrap_id; lia. Qed.

(** Conversion of a mathematical integer to [int]. *)
Definition repr (z : Z) : int :=
  mkint (wrap z) (bool_decide_pack _ (wrap_range z)).

Definition add (x y : int) : int := repr (to_Z x + to_Z y).
Definition sub (x y : int) : int := repr (to_Z x - to_Z y).

Definition lt (x y : int) : bool := to_Z x <? to_Z y.
Definition ge (x y : int) : bool := to_Z x >=? to_Z y.
Definition eq (x y : int) : bool := to_Z x =? to_Z y.
Definition ne (x y : int) : bool := negb (to_Z x =? to_Z y).

Lemma range (x : int) : min_signed ≤ to_Z x ≤ max_signed.
Proof. destruct x as [z Hz]. simpl. exact (bool_decide_unpack _ Hz). Qed.

Lemma to_Z_inj (x y : int) : to_Z x = to_Z y → x = y.
Proof.
  destruct x as [x Hx], y as [y Hy]. simpl. intros ->.
  f_equal. apply proof_irrel.
Qed.

Lemma to_Z_repr (z : Z) : min_signed ≤ z ≤ max_signed → to_Z (repr z) = z.
Proof. intros Hz. simpl. by apply wrap_id. Qed.

Lemma repr_to_Z (x : int) : repr (to_Z x) = x.
Proof. apply to_Z_inj. apply to_Z_repr, range. Qed.

Lemma to_Z_one : to_Z (repr 1) = 1.
Proof. reflexivity. Qed.

Lemma to_Z_add (x y : int) :
  min_signed ≤ to_Z x + to_Z y ≤ max_signed → to_Z (add x y) = to_Z x + to_Z y.
Proof. intros H. unfold add. by apply to_Z_repr. Qed.

Lemma to_Z_sub (x y : int) :
  min_signed ≤ to_Z x - to_Z y ≤ max_signed → to_Z (sub x y) = to_Z x - to_Z y.
Proof. intros H. unfold sub. by apply to_Z_repr. Qed.

End CInt.

Abbreviation int := CInt.int.

(** ** ImplementEnumOperators *)

(** An object of an enumeration declared as the header shows it, with no
    underlying type of its own, which the compiler stores in an [int] (or
    in an [unsigned int], whose conversions to and from [int] lose nothing)
    and whose enumerators promote to [int].  The generated operators only
    ever look at it through the conversion [(int)src] and only ever store
    into it the conversion [(enumName)i] of an [int]; the object is
    therefore the [int] it converts to, under a constructor that keeps the
    two types apart.  Enumerations that fix another underlying type are
    modelled in [Typed] below, of which this is the instance at [int]. *)
Record enumName : Type := Enum { as_int : int }.

(** The value of [(int)e], as a mathematical integer. *)
Definition int_value (e : enumName) : Z := CInt.to_Z (as_int e).

(** The marker class [pxEnumEnd_t] and its one object [pxEnumEnd]. *)
Inductive pxEnumEnd_t : Type := pxEnumEnd.

(** What the external assertion facility is asked to do. *)
Inductive pxEvent : Type := AssertionFailure.

Section ImplementEnumOperators.

(** The two enumerators every conforming enumeration declares. *)
Variables enumName_FIRST enumName_COUNT : enumName.

(** An operator taking [enumName &src] is a function from the value [src]
    holds at the call to the pair of the value returned and the value [src]
    holds afterwards. *)

(** [enumName &operator++(enumName &src)]: the reference returned is [src]
    itself, read after the store. *)
Definition operator_inc (src : enumName) : enumName * enumName :=
  let src := Enum (CInt.add (as_int src) (CInt.repr 1)) in
  (src, src).

(** [enumName &operator--(enumName &src)]. *)
Definition operator_dec (src : enumName) : enumName * enumName :=
  let src := Enum (CInt.sub (as_int src) (CInt.repr 1)) in
  (src, src).

(** [enumName operator++(enumName &src, int)]. *)
Definition operator_inc_post (src : enumName) : enumName * enumName :=
  let orig := src in
  let src := Enum (CInt.add (as_int src) (CInt.repr 1)) in
  (orig, src).

(** [enumName operator--(enumName &src, int)]. *)
Definition operator_dec_post (src : enumName) : enumName * enumName :=
  let orig := src in
  let src := Enum (CInt.sub (as_int src) (CInt.repr 1)) in
  (orig, src).

(** [bool operator!=(const enumName &left, const pxEnumEnd_t &)]. *)
Definition operator_ne (left : enumName) (_ : pxEnumEnd_t) : bool :=
  CInt.ne (as_int left) (as_int enumName_COUNT).

(** [bool operator==(const enumName &left, const pxEnumEnd_t &)]. *)
Definition operator_eq (left : enumName) (_ : pxEnumEnd_t) : bool :=
  CInt.eq (as_int left) (as_int enumName_COUNT).

(** [bool EnumIsValid(enumName id)]. *)
Definition EnumIsValid (id : enumName) : bool :=
  CInt.ge (as_int id) (as_int enumName_FIRST)
  && CInt.lt (as_int id) (as_int enumName_COUNT).

(** Modelled from the spec: the macro [pxAssert] of [Utilities/Assertions.h],
    which is not among the sources.  The assertion collaborator is invoked
    when the condition handed to it is false, and nothing happens when it is
    true.  The result is the list of invocations made. *)
Definition pxAssert (cond : bool) : list pxEvent :=
  if cond then [] else [AssertionFailure].

(** [void EnumAssert(enumName id)]: [id] is taken by value and nothing is
    returned, so the invocations made are all there is to observe. *)
Definition EnumAssert (id : enumName) : list pxEvent :=
  pxAssert (EnumIsValid id).

(** Modelled from the spec: the iteration protocol of the facility, written
    by the code that uses the header and not by the header,
    [for (enumName v = start; cond(v); ++v) visit(v);].
    The result is the sequence of values visited, or [None] when [fuel]
    rounds were not enough to see the condition fail. *)
Fixpoint enum_for (cond : enumName → bool) (fuel : nat) (v : enumName)
  : option (list enumName) :=
  match fuel with
  | O => None
  | S fuel' =>
      if cond v
      then (v ::.) <$> enum_for cond fuel' (snd (operator_inc v))
      else Some []
  end.

(** The loop condition in its sentinel forms. *)
Definition until_eq_END (v : enumName) : bool := negb (operator_eq v pxEnumEnd).
Definition while_ne_END (v : enumName) : bool := operator_ne v pxEnumEnd.

End ImplementEnumOperators.

(** The three-element enumeration [enum E { A, B, C, COUNT }], with
    [E_FIRST = A]. *)
Definition E_A : enumName := Enum (CInt.repr 0).
Definition E_B : enumName := Enum (CInt.repr 1).
Definition E_C : enumName := Enum (CInt.repr 2).
Definition E_COUNT : enumName := Enum (CInt.repr 3).
Definition E_FIRST : enumName := E_A.


(** ** ImplementEnumOperators on an enumeration of any underlying type *)

(** The macro can be applied to an enumeration that fixes its underlying
    type ([enum E : unsigned char { ... }]).  The store [(enumName)i] then
    converts to that type, and the comparisons with the enumerators
    [enumName_FIRST] and [enumName_COUNT] are made in the type the
    enumerators promote to.  An object is modelled by the value it holds, an
    integer in the range of the underlying type. *)
Module Typed.

(** The integer types: signed and unsigned, of 8, 16, 32 and 64 bits;
    [s32] is [int] and [u32] is [unsigned int]. *)
Inductive itype : Type := s8 | u8 | s16 | u16 | s32 | u32 | s64 | u64.

Definition bits (t : itype) : Z :=
  match t with
  | s8 | u8 => 8
  | s16 | u16 => 16
  | s32 | u32 => 32
  | s64 | u64 => 64
  end.

Definition is_signed (t : itype) : bool :=
  match t with
  | s8 | s16 | s32 | s64 => true
  | u8 | u16 | u32 | u64 => false
  end.

Definition lo (t : itype) : Z := if is_signed t then - 2 ^ (bits t - 1) else 0.
Definition hi (t : itype) : Z :=
  if is_signed t then 2 ^ (bits t - 1) - 1 else 2 ^ bits t - 1.

Definition in_range (t : itype) (z : Z) : Prop := lo t ≤ z ≤ hi t.

(** Conversion of an integer to the type [t]: reduction modulo two to the
    number of bits, into the range of [t]. *)
Definition convert (t : itype) (z : Z) : Z :=
  if is_signed t then CInt.swrap (bits t) z else z `mod` 2 ^ bits t.

(** Integral promotion: a type narrower than [int] promotes to [int]. *)
Definition promote (t : itype) : itype :=
  match t with
  | s8 | u8 | s16 | u16 => s32
  | _ => t
  end.

(** The type in which an [int] and an operand of the promoted type [p] are
    compared (the usual arithmetic conversions): [int] with [int],
    [unsigned int] with [unsigned int], the 64-bit type with a 64-bit
    type. *)
Definition common_with_int (p : itype) : itype :=
  match p with
  | s8 | u8 | s16 | u16 | s32 => s32
  | _ => p
  end.

(** An enumeration the macro is applied to: its underlying type, whether
    the declaration fixes that type, and its two bounds. *)
Record enumeration : Type := Enumeration {
  underlying : itype;
  fixed : bool;
  e_FIRST : Z;
  e_COUNT : Z
}.

(** The type the enumerators promote to.  With a fixed underlying type it is
    the promotion of that type.  Without one it is the first of [int],
    [unsigned int], ... that holds the values of the enumeration, which is
    [int] for the enumerations considered (see [conforming]). *)
Definition promoted (e : enumeration) : itype :=
  if fixed e then promote (underlying e) else s32.

Definition compare_type (e : enumeration) : itype :=
  common_with_int (promoted e).

(** The enumerations considered: the bounds are values of the underlying
    type; and an enumeration that does not fix its type has bounds that fit
    [int] and is stored in an [int] or an [unsigned int]. *)
Definition conforming (e : enumeration) : Prop :=
  in_range (underlying e) (e_FIRST e)
  ∧ in_range (underlying e) (e_COUNT e)
  ∧ (fixed e = false →
     (underlying e = s32 ∨ underlying e = u32)
     ∧ CInt.min_signed ≤ e_FIRST e ≤ CInt.max_signed
     ∧ CInt.min_signed ≤ e_COUNT e ≤ CInt.max_signed).

(** [(int)src]. *)
Definition to_int (src : Z) : Z := CInt.wrap src.

(** [(enumName)i], for [i] an [int]. *)
Definition to_enum (U : itype) (i : Z) : Z := convert U i.

(** The operators: as in [ImplementEnumOperators], a pair of the value
    returned and the value [src] holds afterwards. *)
Definition operator_inc (U : itype) (src : Z) : Z * Z :=
  let src := to_enum U (CInt.wrap (to_int src + 1)) in
  (src, src).

Definition operator_dec (U : itype) (src : Z) : Z * Z :=
  let src := to_enum U (CInt.wrap (to_int src - 1)) in
  (src, src).

Definition operator_inc_post (U : itype) (src : Z) : Z * Z :=
  let orig := src in
  let src := to_enum U (CInt.wrap (to_int src + 1)) in
  (orig, src).

Definition operator_dec_post (U : itype) (src : Z) : Z * Z :=
  let orig := src in
  let src := to_enum U (CInt.wrap (to_int src - 1)) in
  (orig, src).

(** [(int)left < enumName_COUNT] and the like: both operands are converted
    to the type of the comparison. *)
Definition operator_lt (e : enumeration) (left : Z) (_ : pxEnumEnd_t) : bool :=
  convert (compare_type e) (to_int left) <? convert (compare_type e) (e_COUNT e).

Definition operator_ne (e : enumeration) (left : Z) (_ : pxEnumEnd_t) : bool :=
  negb (convert (compare_type e) (to_int left) =? convert (compare_type e) (e_COUNT e)).

Definition operator_eq (e : enumeration) (left : Z) (_ : pxEnumEnd_t) : bool :=
  convert (compare_type e) (to_int left) =? convert (compare_type e) (e_COUNT e).

Definition EnumIsValid (e : enumeration) (id : Z) : bool :=
  (convert (compare_type e) (to_int id) >=? convert (compare_type e) (e_FIRST e))
  && (convert (compare_type e) (to_int id) <? convert (compare_type e) (e_COUNT e)).

(** Modelled from the spec: the iteration protocol,
    [for (enumName v = start; cond(v); ++v) visit(v);], as [enum_for]
    above. *)
Fixpoint enum_for (U : itype) (cond : Z → bool) (fuel : nat) (v : Z)
  : option (list Z) :=
  match fuel with
  | O => None
  | S fuel' =>
      if cond v
      then (v ::.) <$> enum_for U cond fuel' (snd (operator_inc U v))
      else Some []
  end.

Definition until_eq_END (e : enumeration) (v : Z) : bool :=
  negb (operator_eq e v pxEnumEnd).
Definition while_ne_END (e : enumeration) (v : Z) : bool :=
  operator_ne e v pxEnumEnd.
Definition while_lt_END (e : enumeration) (v : Z) : bool :=
  operator_lt e v pxEnumEnd.


(** [enum E { A, B, C, COUNT }], stored in an [int]. *)
Definition E : enumeration := Enumeration s32 false 0 3.

(** [enum E8 : unsigned char { A, B, C, COUNT }]. *)
Definition E8 : enumeration := Enumeration u8 true 0 3.

(** [enum EU : unsigned int { A, B, C, COUNT }]. *)
Definition EU : enumeration := Enumeration u32 true 0 3.

End Typed.

(** ** The debug and developer try/catch macros *)

(** Lines 26-40 of the header are preprocessor text.  The model is the
    macro table the preprocessor holds after reading them, and the token
    sequence a use of one of the names is replaced by. *)
Module Preprocessor.

(** A token is its spelling. *)
Abbreviation token := string.

Inductive macro : Type :=
| ObjectLike (replacement : list token)
| FunctionLike (params : list token) (replacement : list token).

(** The controlling expressions that occur: [#ifdef N] is [#if defined(N)]. *)
Inductive condition : Type :=
| Cdefined (name : string)
| Cor (a b : condition).

(** [#if c] defines [#else] defines [#endif]. *)
Record group : Type := IfElse {
  g_cond : condition;
  g_then : list (string * macro);
  g_else : list (string * macro)
}.

Abbreviation macro_table := (gmap string macro).

Fixpoint eval_condition (tbl : macro_table) (c : condition) : bool :=
  match c with
  | Cdefined n => bool_decide (is_Some (tbl !! n))
  | Cor a b => eval_condition tbl a || eval_condition tbl b
  end.

(** [#define]: the definition read last is the one in force. *)
Definition define (tbl : macro_table) (d : string * macro) : macro_table :=
  <[d.1 := d.2]> tbl.

Definition run_group (tbl : macro_table) (g : group) : macro_table :=
  foldl define tbl (if eval_condition tbl (g_cond g) then g_then g else g_else g).

Definition preprocess (tbl : macro_table) (gs : list group) : macro_table :=
  foldl run_group tbl gs.

(** The build flags, as the compiler command line defines them. *)
Record build : Type := Build { PCSX2_DEBUG : bool; PCSX2_DEVBUILD : bool }.

Definition command_line (b : build) : macro_table :=
  (if PCSX2_DEBUG b then <["PCSX2_DEBUG" := ObjectLike ["1"]]> else id)
    ((if PCSX2_DEVBUILD b then <["PCSX2_DEVBUILD" := ObjectLike ["1"]]> else id) ∅).

Definition tok_try : list token := ["try"].
Definition tok_catch (clause : list token) : list token :=
  ["catch"; "("] ++ clause ++ [")"].
Definition tok_if_true : list token := ["if"; "("; "true"; ")"].
Definition tok_if_false : list token := ["if"; "("; "false"; ")"].

(** Lines 26-32 and 34-40. *)
Definition lines_26_40 : list group :=
  [ IfElse (Cdefined "PCSX2_DEBUG")
      [ ("tryDEBUG", ObjectLike tok_try);
        ("catchDEBUG", FunctionLike ["clause"] (tok_catch ["clause"])) ]
      [ ("tryDEBUG", ObjectLike tok_if_true);
        ("catchDEBUG", FunctionLike ["clause"] tok_if_false) ];
    IfElse (Cor (Cdefined "PCSX2_DEVBUILD") (Cdefined "PCSX2_DEBUG"))
      [ ("tryDEVEL", ObjectLike tok_try);
        ("catchDEVEL", ObjectLike (tok_catch ["clause"])) ]
      [ ("tryDEBUG", ObjectLike tok_if_true);
        ("catchDEBUG", FunctionLike ["clause"] tok_if_false) ] ].

(** The table in force below line 40. *)
Definition header_macros (b : build) : macro_table :=
  preprocess (command_line b) lines_26_40.

(** Replacement of the parameters of a function-like macro by the
    arguments of the invocation. *)
Definition substitute (params : list token) (args : list (list token))
    (replacement : list token) : list token :=
  replacement ≫= λ t,
    match list_find (λ p, p = t) params with
    | Some (i, _) => default [t] (args !! i)
    | None => [t]
    end.

(** The arguments of an invocation written back as tokens. *)
Fixpoint arguments (args : list (list token)) : list token :=
  match args with
  | [] => []
  | [a] => a
  | a :: rest => a ++ "," :: arguments rest
  end.

(** What the use [name] (when [args] is [None]) or [name(args)] is replaced
    by.  An identifier that names no macro stays as it is, an object-like
    macro is replaced and what follows it stays, and a function-like macro
    is replaced together with its argument list.  None of the replacement
    lists of lines 26-40 contains a macro name, so there is nothing to
    rescan. *)
Definition expand (tbl : macro_table) (name : string)
    (args : option (list (list token))) : list token :=
  let rest := match args with
              | None => []
              | Some a => ["("] ++ arguments a ++ [")"]
              end in
  match tbl !! name, args with
  | Some (ObjectLike r), _ => r ++ rest
  | Some (FunctionLike ps r), Some a => substitute ps a r
  | Some (FunctionLike _ _), None => [name]
  | None, _ => name :: rest
  end.

(** [tryX { ... } catchX(clause) { ... }] after replacement: the tokens in
    front of the first block and the tokens in front of the second. *)
Definition handler_pair (tbl : macro_table) (try_name catch_name : string)
    (clause : list token) : list token * list token :=
  (expand tbl try_name None, expand tbl catch_name (Some [clause])).

(** A conventional exception handler: [try { ... } catch (clause) { ... }]. *)
Definition conventional_handler (tbl : macro_table) (try_name catch_name : string) : Prop :=
  ∀ clause, handler_pair tbl try_name catch_name clause = (tok_try, tok_catch clause).

(** The straight-line form: [if (true) { ... } if (false) { ... }]. *)
Definition straight_line (tbl : macro_table) (try_name catch_name : string) : Prop :=
  ∀ clause, handler_pair tbl try_name catch_name clause = (tok_if_true, tok_if_false).

(** *** Reading [#define] strictly *)

#[global] Instance macro_eq_dec : EqDecision macro.
Proof. solve_decision. Defined.

(** The language lets a name be defined again only with the definition it
    already has; [None] is a redefinition that differs. *)
Definition define_strict (tbl : macro_table) (d : string * macro)
  : option macro_table :=
  match tbl !! d.1 with
  | None => Some (<[d.1 := d.2]> tbl)
  | Some m => if decide (m = d.2) then Some tbl else None
  end.

Fixpoint defines_strict (tbl : macro_table) (ds : list (string * macro))
  : option macro_table :=
  match ds with
  | [] => Some tbl
  | d :: ds => tbl ← define_strict tbl d; defines_strict tbl ds
  end.

Fixpoint preprocess_strict (tbl : macro_table) (gs : list group)
  : option macro_table :=
  match gs with
  | [] => Some tbl
  | g :: gs =>
      tbl ← defines_strict tbl
              (if eval_condition tbl (g_cond g) then g_then g else g_else g);
      preprocess_strict tbl gs
  end.

(** *** The translation aliases *)

(** [#ifndef name] / [#define name ...] / [#endif]. *)
Definition ifndef (d : string * macro) : group :=
  IfElse (Cdefined d.1) [] [d].

(** Lines 175-185: [_], [_t] and [_d]. *)
Definition lines_175_185 : list (string * macro) :=
  [ ("_", FunctionLike ["s"] ["pxGetTranslation"; "("; "_T"; "("; "s"; ")"; ")"]);
    ("_t", FunctionLike ["s"] ["pxGetTranslation"; "("; "_T"; "("; "s"; ")"; ")"]);
    ("_d", FunctionLike ["s"] ["pxGetTranslation"; "("; "_T"; "("; "s"; ")"; ")"]) ].

(** Lines 193-203: [pxL], [pxLt] and [pxDt]. *)
Definition lines_193_203 : list (string * macro) :=
  [ ("pxL", FunctionLike ["a"] ["wxT"; "("; "a"; ")"]);
    ("pxLt", FunctionLike ["a"] ["wxT"; "("; "a"; ")"]);
    ("pxDt", FunctionLike ["a"] ["wxT"; "("; "a"; ")"]) ].

(** Lines 257-263: [pxE], [pxEt] and [pxE_dev], defined outside any
    conditional. *)
Definition lines_257_263 : list (string * macro) :=
  [ ("pxE", FunctionLike ["english"] ["pxExpandMsg"; "("; "("; "english"; ")"; ")"]);
    ("pxEt", FunctionLike ["english"] ["pxExpandMsg"; "("; "("; "english"; ")"; ")"]);
    ("pxE_dev", FunctionLike ["english"] ["pxExpandMsg"; "("; "("; "english"; ")"; ")"]) ].

(** The table below line 203, from the table [tbl] in force at line 175. *)
Definition guarded_aliases (tbl : macro_table) : macro_table :=
  preprocess tbl (ifndef <$> lines_175_185 ++ lines_193_203).

(** The table below line 263, from the table [tbl] in force at line 257. *)
Definition message_aliases (tbl : macro_table) : macro_table :=
  foldl define tbl lines_257_263.

(** *** Invocations with their arguments counted *)

(** The arguments of an invocation, from the tokens between its
    parentheses: they are separated by the commas that stand outside every
    inner pair of parentheses.  [depth] counts the inner parentheses open,
    [current] holds the tokens of the argument being read, last first.
    [None] when the parentheses of the tokens do not match. *)
Fixpoint split_arguments_from (depth : nat) (current : list token)
    (toks : list token) : option (list (list token)) :=
  match toks with
  | [] =>
      match depth with
      | O => Some [reverse current]
      | S _ => None
      end
  | t :: rest =>
      if decide (t = "(") then split_arguments_from (S depth) (t :: current) rest
      else if decide (t = ")") then
        match depth with
        | O => None
        | S depth' => split_arguments_from depth' (t :: current) rest
        end
      else if decide (t = ",") then
        match depth with
        | O => (reverse current ::.) <$> split_arguments_from O [] rest
        | S _ => split_arguments_from depth (t :: current) rest
        end
      else split_arguments_from depth (t :: current) rest
  end.

Definition split_arguments (toks : list token) : option (list (list token)) :=
  split_arguments_from O [] toks.

(** What the use [name(toks)] is replaced by, [None] when the preprocessor
    rejects it: a function-like macro must be given as many arguments as it
    has parameters (one empty argument for a macro without parameters).
    Arguments are put in as they are written: that is their replacement
    when none of their tokens names a macro. *)
Definition invoke (tbl : macro_table) (name : string) (toks : list token)
  : option (list token) :=
  match tbl !! name with
  | Some (FunctionLike ps r) =>
      args ← split_arguments toks;
      if decide (length args = length ps) then Some (substitute ps args r)
      else if decide (ps = [] ∧ args = [[]]) then Some r
      else None
  | Some (ObjectLike r) => Some (r ++ ["("] ++ toks ++ [")"])
  | None => Some (name :: ["("] ++ toks ++ [")"])
  end.

End Preprocessor.

(** ** Class declarations and DeclareNoncopyableObject *)

(** Whether a class can be copied or moved is decided by the member
    declarations in its body.  A class body is modelled by the list of the
    member functions it declares, in order, and the rules of the language
    that turn the declarations into the operations available to the code
    outside the class are written out below (C++11, the dialect the header's
    [= delete] needs). *)
Module Class.

Inductive access : Type := Public | Protected | Private.

(** How a declared member function is provided. *)
Inductive provision : Type :=
| Implemented      (* a body is given, or the compiler generates one *)
| NotImplemented   (* declared, no body anywhere *)
| Deleted.         (* [= delete] *)

Inductive member : Type :=
| OtherConstructor
| CopyConstructor
| CopyAssignment
| MoveConstructor
| MoveAssignment
| Destructor.

#[global] Instance member_eq_dec : EqDecision member.
Proof. solve_decision. Defined.

Record declaration : Type := Decl {
  d_member : member;
  d_access : access;
  d_provision : provision
}.

Abbreviation class_body := (list declaration).

(** The declaration of [k] the class body writes, if it writes one. *)
Definition user_declared (k : member) (c : class_body) : option declaration :=
  snd <$> list_find (λ d, d_member d = k) c.

Definition declares (k : member) (c : class_body) : bool :=
  bool_decide (is_Some (user_declared k c)).

(** The copy constructor of the class: the one declared, or the implicit
    one, public, which is deleted when the class declares a move operation. *)
Definition copy_constructor (c : class_body) : declaration :=
  match user_declared CopyConstructor c with
  | Some d => d
  | None =>
      Decl CopyConstructor Public
        (if declares MoveConstructor c || declares MoveAssignment c
         then Deleted else Implemented)
  end.

(** The copy assignment operator of the class, under the same rule. *)
Definition copy_assignment (c : class_body) : declaration :=
  match user_declared CopyAssignment c with
  | Some d => d
  | None =>
      Decl CopyAssignment Public
        (if declares MoveConstructor c || declares MoveAssignment c
         then Deleted else Implemented)
  end.

(** The move constructor: the one declared; an implicit one only when the
    class declares no copy operation, no move assignment and no destructor;
    otherwise there is none. *)
Definition move_constructor (c : class_body) : option declaration :=
  match user_declared MoveConstructor c with
  | Some d => Some d
  | None =>
      if declares CopyConstructor c || declares CopyAssignment c
         || declares MoveAssignment c || declares Destructor c
      then None
      else Some (Decl MoveConstructor Public Implemented)
  end.

(** The move assignment operator, under the same rule. *)
Definition move_assignment (c : class_body) : option declaration :=
  match user_declared MoveAssignment c with
  | Some d => Some d
  | None =>
      if declares CopyConstructor c || declares CopyAssignment c
         || declares MoveConstructor c || declares Destructor c
      then None
      else Some (Decl MoveAssignment Public Implemented)
  end.

(** A use of a member function from outside the class compiles when the
    function is public and not deleted.  (One that is declared and never
    implemented compiles too, and fails when the program is linked.) *)
Definition compiles (d : declaration) : bool :=
  match d_access d, d_provision d with
  | Public, Implemented | Public, NotImplemented => true
  | _, _ => false
  end.

(** [T b(a);] *)
Definition copy_construct_compiles (c : class_body) : bool :=
  compiles (copy_constructor c).

(** [b = a;] *)
Definition copy_assign_compiles (c : class_body) : bool :=
  compiles (copy_assignment c).

(** [T b(std::move(a));]: the move constructor when the class has one,
    the copy constructor when it has none. *)
Definition move_construct_compiles (c : class_body) : bool :=
  match move_constructor c with
  | Some d => compiles d
  | None => copy_construct_compiles c
  end.

(** [b = std::move(a);] *)
Definition move_assign_compiles (c : class_body) : bool :=
  match move_assignment c with
  | Some d => compiles d
  | None => copy_assign_compiles c
  end.

(** [DeclareNoncopyableObject(classname)], lines 132-135: the two
    declarations the macro writes into the class body, both under
    [private:]. *)
Definition DeclareNoncopyableObject (c : class_body) : class_body :=
  c ++ [ Decl CopyConstructor Private NotImplemented;
         Decl CopyAssignment Private Deleted ].

(** The body of [class ScopedBool], lines 144-160: a constructor from
    [bool &] and a destructor, both public and both with a body. *)
Definition ScopedBool : class_body :=
  [ Decl OtherConstructor Public Implemented;
    Decl Destructor Public Implemented ].

End Class.

(** ** ScopedBool *)

(** The [bool] objects alive, by address.  Writing through a pointer to an
    object that is not alive has no defined result. *)
Abbreviation address := positive.
Abbreviation memory := (gmap positive bool).

Definition write (p : address) (b : bool) (m : memory) : option memory :=
  match m !! p with
  | Some _ => Some (<[p := b]> m)
  | None => None
  end.

(** The one data member. *)
Record ScopedBool : Type := { m_boolme : address }.

(** [ScopedBool(bool &boolme)]: the reference is the address of the
    caller's object. *)
Definition ScopedBool_ctor (boolme : address) (m : memory)
  : option (ScopedBool * memory) :=
  m ← write boolme true m;
  Some ({| m_boolme := boolme |}, m).

(** [~ScopedBool()]. *)
Definition ScopedBool_dtor (this : ScopedBool) (m : memory) : option memory :=
  write (m_boolme this) false m.

(** The copy constructor the compiler generates for the class, which copies
    the data member. *)
Definition ScopedBool_copy (other : ScopedBool) : ScopedBool :=
  {| m_boolme := m_boolme other |}.

(** The ways control leaves a block. *)
Inductive completion : Type :=
| Normal     (* the end of the block is reached *)
| Returned   (* a [return] inside the block *)
| Thrown.    (* an exception leaves the block *)

(** A block of statements acting on the memory; [None] when it has no
    defined result. *)
Abbreviation block := (memory → option (completion * memory)).

(** [{ ScopedBool guard(boolme); body }]: the guard is an automatic object
    of the block, so its destructor runs when control leaves the block,
    however it does, and control then goes on as [body] left it. *)
Definition scoped_block (boolme : address) (body : block) : block :=
  λ m,
    '(guard, m) ← ScopedBool_ctor boolme m;
    '(c, m) ← body m;
    m ← ScopedBool_dtor guard m;
    Some (c, m).

(** [first; second]: [second] runs when [first] reaches its end. *)
Definition seq_block (first second : block) : block :=
  λ m,
    '(c, m) ← first m;
    match c with
    | Normal => second m
    | _ => Some (c, m)
    end.

(** A block that does nothing and is left the way [c]. *)
Definition leave (c : completion) : block := λ m, Some (c, m).

(** One flag [f], initially false, for the scenarios. *)
Definition flag_f : address := 1%positive.
Definition memory_f : memory := {[ flag_f := false ]}.

(** ** Size constants *)

Module Sizes.

(** Modelled from the spec: the integer types [sptr] and [s64] come from
    [Pcsx2Defs.h], which is not among the sources; [sptr] is the
    pointer-sized signed integer and [s64] the 64-bit signed integer. *)
Inductive ctype : Type := T_int | T_sptr | T_s64.

(** The size of a pointer on the target. *)
Inductive pointer_size : Type := P32 | P64.

Definition width (ps : pointer_size) (t : ctype) : Z :=
  match t with
  | T_int => 32
  | T_sptr => match ps with P32 => 32 | P64 => 64 end
  | T_s64 => 64
  end.

(** A value of an integer expression, with the type it is computed in. *)
Record value : Type := Val { v_type : ctype; v_int : Z }.

(** An integer literal that fits [int]. *)
Definition lit (z : Z) : value := Val T_int (CInt.swrap 32 z).

(** The type a binary operator computes in: the wider operand type, and
    the operand type that is not [int] when the two are as wide. *)
Definition common_type (ps : pointer_size) (a b : ctype) : ctype :=
  if width ps a <? width ps b then b
  else if width ps b <? width ps a then a
  else match a with T_int => b | _ => a end.

(** [a * b]. *)
Definition mul (ps : pointer_size) (a b : value) : value :=
  let t := common_type ps (v_type a) (v_type b) in
  Val t (CInt.swrap (width ps t) (v_int a * v_int b)).

(** [static const t name = e;] *)
Definition static_const (ps : pointer_size) (t : ctype) (e : value) : value :=
  Val t (CInt.swrap (width ps t) (v_int e)).

Section Constants.

Variable ps : pointer_size.

Definition _1kb : value := static_const ps T_sptr (mul ps (lit 1024) (lit 1)).
Definition _4kb : value := static_const ps T_sptr (mul ps _1kb (lit 4)).
Definition _16kb : value := static_const ps T_sptr (mul ps _1kb (lit 16)).
Definition _32kb : value := static_const ps T_sptr (mul ps _1kb (lit 32)).
Definition _64kb : value := static_const ps T_sptr (mul ps _1kb (lit 64)).
Definition _128kb : value := static_const ps T_sptr (mul ps _1kb (lit 128)).
Definition _256kb : value := static_const ps T_sptr (mul ps _1kb (lit 256)).

Definition _1mb : value := static_const ps T_s64 (mul ps (lit 1024) (lit 1024)).
Definition _8mb : value := static_const ps T_s64 (mul ps _1mb (lit 8)).
Definition _16mb : value := static_const ps T_s64 (mul ps _1mb (lit 16)).
Definition _32mb : value := static_const ps T_s64 (mul ps _1mb (lit 32)).
Definition _64mb : value := static_const ps T_s64 (mul ps _1mb (lit 64)).
Definition _256mb : value := static_const ps T_s64 (mul ps _1mb (lit 256)).
Definition _1gb : value := static_const ps T_s64 (mul ps _1mb (lit 1024)).
Definition _4gb : value := static_const ps T_s64 (mul ps _1gb (lit 4)).

(** [a + b], for the sums the constants are checked with. *)
Definition add (a b : value) : value :=
  let t := common_type ps (v_type a) (v_type b) in
  Val t (CInt.swrap (width ps t) (v_int a + v_int b)).

End Constants.

(** The constants in the order of their declarations. *)
Definition table (ps : pointer_size) : list value :=
  [ _1kb ps; _4kb ps; _16kb ps; _32kb ps; _64kb ps; _128kb ps; _256kb ps;
    _1mb ps; _8mb ps; _16mb ps; _32mb ps; _64mb ps; _256mb ps; _1gb ps; _4gb ps ].

End Sizes.

(** * Properties *)

(** ** The enumeration operators *)

Lemma enum_eq (a b : enumName) : int_value a = int_value b → a = b.
Proof.
  destruct a as [a], b as [b]. unfold int_value. simpl.
  intros H. f_equal. by apply CInt.to_Z_inj.
Qed.

Lemma int_value_range (v : enumName) :
  CInt.min_signed ≤ int_value v ≤ CInt.max_signed.
Proof. apply CInt.range. Qed.

Section EnumFacts.

Variables FIRST COUNT : enumName.

Lemma EnumIsValid_true (k : enumName) :
  EnumIsValid FIRST COUNT k = true ↔ int_value FIRST ≤ int_value k < int_value COUNT.
Proof.
  unfold EnumIsValid, CInt.ge, CInt.lt, int_value.
  rewrite andb_true_iff, Z.geb_le, Z.ltb_lt. lia.
Qed.

Lemma EnumIsValid_false (k : enumName) :
  EnumIsValid FIRST COUNT k = false
  ↔ int_value k < int_value FIRST ∨ int_value COUNT ≤ int_value k.
Proof.
  rewrite <- not_true_iff_false, EnumIsValid_true. lia.
Qed.

Lemma operator_eq_true (v : enumName) (e : pxEnumEnd_t) :
  operator_eq COUNT v e = true ↔ int_value v = int_value COUNT.
Proof. unfold operator_eq, CInt.eq, int_value. apply Z.eqb_eq. Qed.

Lemma operator_ne_true (v : enumName) (e : pxEnumEnd_t) :
  operator_ne COUNT v e = true ↔ int_value v ≠ int_value COUNT.
Proof.
  unfold operator_ne, CInt.ne, int_value.
  rewrite negb_true_iff. apply Z.eqb_neq.
Qed.

Lemma operator_ne_negb_eq (v : enumName) (e : pxEnumEnd_t) :
  operator_ne COUNT v e = negb (operator_eq COUNT v e).
Proof. reflexivity. Qed.

End EnumFacts.

Lemma operator_inc_value (v : enumName) :
  int_value v < CInt.max_signed →
  int_value (snd (operator_inc v)) = int_value v + 1.
Proof.
  intros H. pose proof (int_value_range v) as Hr.
  unfold operator_inc, int_value in *. simpl snd. simpl as_int.
  rewrite CInt.to_Z_add; rewrite CInt.to_Z_one; lia.
Qed.

Lemma operator_dec_value (v : enumName) :
  CInt.min_signed < int_value v →
  int_value (snd (operator_dec v)) = int_value v - 1.
Proof.
  intros H. pose proof (int_value_range v) as Hr.
  unfold operator_dec, int_value in *. simpl snd. simpl as_int.
  rewrite CInt.to_Z_sub; rewrite CInt.to_Z_one; lia.
Qed.

(** The prefix operators return the object they have just stored into. *)
Lemma operator_inc_returns_src (v : enumName) :
  fst (operator_inc v) = snd (operator_inc v).
Proof. reflexivity. Qed.

Lemma operator_dec_returns_src (v : enumName) :
  fst (operator_dec v) = snd (operator_dec v).
Proof. reflexivity. Qed.




(** *** Loops over an enumeration *)

Lemma enum_for_ext (c1 c2 : enumName → bool) :
  (∀ v, c1 v = c2 v) → ∀ fuel v, enum_for c1 fuel v = enum_for c2 fuel v.
Proof.
  intros Hc fuel. induction fuel as [|fuel IH]; intros v; simpl; [done|].
  rewrite Hc, IH. done.
Qed.

(** [v != pxEnumEnd] and the negation of [v == pxEnumEnd] condition the
    same loop. *)
Lemma enum_for_ne_END (COUNT : enumName) (fuel : nat) (v : enumName) :
  enum_for (while_ne_END COUNT) fuel v = enum_for (until_eq_END COUNT) fuel v.
Proof. apply enum_for_ext. intros u. apply operator_ne_negb_eq. Qed.

(** More fuel does not change what a loop that has ended visited. *)
Lemma enum_for_more_fuel (cond : enumName → bool) (fuel fuel' : nat) :
  (fuel ≤ fuel')%nat →
  ∀ v visited, enum_for cond fuel v = Some visited → enum_for cond fuel' v = Some visited.
Proof.
  revert fuel'. induction fuel as [|fuel IH]; intros fuel' Hle v visited; simpl; [done|].
  destruct fuel' as [|fuel']; [lia|]. simpl.
  destruct (cond v); [|done].
  destruct (enum_for cond fuel _) as [l|] eqn:Hl; [|done].
  rewrite (IH fuel' ltac:(lia) _ _ Hl). done.
Qed.

(** From any [v] not above [COUNT], the loop that runs until [v == pxEnumEnd]
    ends within [COUNT - v + 1] tests and visits [v], [v + 1], ..., [COUNT - 1]. *)
Lemma enum_for_until_END (COUNT : enumName) (n : nat) :
  ∀ v, int_value v ≤ int_value COUNT →
       Z.to_nat (int_value COUNT - int_value v) = n →
       ∃ visited,
         enum_for (until_eq_END COUNT) (S n) v = Some visited
         ∧ int_value <$> visited = seqZ (int_value v) (int_value COUNT - int_value v).
Proof.
  induction n as [|n IH]; intros v Hle Hn.
  - exists []. simpl. unfold until_eq_END.
    replace (operator_eq COUNT v pxEnumEnd) with true
      by (symmetry; apply operator_eq_true; lia).
    split; [done|]. rewrite seqZ_nil by lia. done.
  - pose proof (int_value_range COUNT) as Hc.
    assert (Hlt : int_value v < int_value COUNT) by lia.
    assert (Hstep : int_value (snd (operator_inc v)) = int_value v + 1)
      by (apply operator_inc_value; lia).
    destruct (IH (snd (operator_inc v))) as (l & Hrun & Hl); [lia | lia |].
    exists (v :: l). split.
    + change (enum_for (until_eq_END COUNT) (S (S n)) v)
        with (if until_eq_END COUNT v
              then (v ::.) <$> enum_for (until_eq_END COUNT) (S n) (snd (operator_inc v))
              else Some []).
      unfold until_eq_END at 1.
      replace (operator_eq COUNT v pxEnumEnd) with false.
      * simpl negb. cbv iota. rewrite Hrun. done.
      * symmetry. apply not_true_iff_false. rewrite operator_eq_true. lia.
    + rewrite fmap_cons, Hl, Hstep.
      rewrite (seqZ_cons (int_value v)) by lia.
      f_equal. f_equal; lia.
Qed.

(** ** The claims on the enumeration facility *)


(** The first scenario of the facility: the three members are valid and
    the sentinel is not. *)
Example EnumIsValid_three_members :
  EnumIsValid E_FIRST E_COUNT <$> [E_A; E_B; E_C; E_COUNT]
  = [true; true; true; false].
Proof. reflexivity. Qed.


(** C4.  For every bounded enumeration with [FIRST <= COUNT], the loop that
    starts at [FIRST] and increments until the value compares [== pxEnumEnd]
    ends, and has visited [FIRST], [FIRST + 1], ..., [COUNT - 1]: exactly
    [COUNT - FIRST] values, each once, in declaration order; none when
    [FIRST] equals [COUNT]. *)
Theorem enum_iteration_visits_each_member_once (FIRST COUNT : enumName) :
  int_value FIRST ≤ int_value COUNT →
  ∃ visited : list enumName,
    (∀ fuel, (Z.to_nat (int_value COUNT - int_value FIRST) < fuel)%nat →
             enum_for (until_eq_END COUNT) fuel FIRST = Some visited)
    ∧ int_value <$> visited
      = seqZ (int_value FIRST) (int_value COUNT - int_value FIRST)
    ∧ Z.of_nat (length visited) = int_value COUNT - int_value FIRST
    ∧ NoDup visited
    ∧ (int_value FIRST = int_value COUNT → visited = []).
Proof.
  intros Hle.
  destruct (enum_for_until_END COUNT _ FIRST Hle eq_refl) as (visited & Hrun & Hvals).
  exists visited. split; [|split; [|split; [|split]]].
  - intros fuel Hfuel.
    apply (enum_for_more_fuel _ (S (Z.to_nat (int_value COUNT - int_value FIRST))));
      [lia | exact Hrun].
  - exact Hvals.
  - rewrite <- (length_fmap int_value), Hvals, length_seqZ. lia.
  - apply (NoDup_fmap_1 int_value). rewrite Hvals. apply NoDup_seqZ.
  - intros Heq. apply (fmap_nil_inv int_value). rewrite Hvals.
    apply seqZ_nil. lia.
Qed.

(** C4 on the three-element enumeration: the members visited are [A], [B]
    and [C]. *)
Lemma enum_iteration_three_members :
  int_value E_FIRST ≤ int_value E_COUNT
  ∧ enum_for (until_eq_END E_COUNT) 4 E_FIRST = Some [E_A; E_B; E_C]
  ∧ ∃ visited : list enumName,
      (∀ fuel, (Z.to_nat (int_value E_COUNT - int_value E_FIRST) < fuel)%nat →
               enum_for (until_eq_END E_COUNT) fuel E_FIRST = Some visited)
      ∧ int_value <$> visited
        = seqZ (int_value E_FIRST) (int_value E_COUNT - int_value E_FIRST)
      ∧ Z.of_nat (length visited) = int_value E_COUNT - int_value E_FIRST
      ∧ NoDup visited
      ∧ (int_value E_FIRST = int_value E_COUNT → visited = []).
Proof.
  assert (Hle : int_value E_FIRST ≤ int_value E_COUNT)
    by (vm_compute; discriminate).
  refine (conj Hle (conj _ _)).
  - reflexivity.
  - exact (enum_iteration_visits_each_member_once E_FIRST E_COUNT Hle).
Defined.

(** C9.  For every enumeration value [v], [EnumAssert v] invokes the
    assertion collaborator exactly when [EnumIsValid v] is false, once, and
    does nothing else: it makes no invocation when [v] is valid. *)
Theorem EnumAssert_fires_iff_invalid (FIRST COUNT v : enumName) :
  (EnumAssert FIRST COUNT v = [AssertionFailure]
   ↔ EnumIsValid FIRST COUNT v = false)
  ∧ (EnumAssert FIRST COUNT v = [] ↔ EnumIsValid FIRST COUNT v = true)
  ∧ (AssertionFailure ∈ EnumAssert FIRST COUNT v
     ↔ int_value v < int_value FIRST ∨ int_value COUNT ≤ int_value v).
Proof.
  rewrite <- EnumIsValid_false. unfold EnumAssert, pxAssert.
  destruct (EnumIsValid FIRST COUNT v); repeat split; try done.
  - intros H. by apply elem_of_nil in H.
  - intros _. apply list_elem_of_singleton. done.
Qed.

(** ** The scoped flag guard *)

Lemma write_alive (p : address) (b : bool) (m : memory) :
  is_Some (m !! p) → write p b m = Some (<[p := b]> m).
Proof. intros [held Hp]. unfold write. by rewrite Hp. Qed.

Lemma write_dangling (p : address) (b : bool) (m : memory) :
  m !! p = None → write p b m = None.
Proof. intros Hp. unfold write. by rewrite Hp. Qed.

Lemma insert_alive (p q : address) (b : bool) (m : memory) :
  is_Some (m !! q) → is_Some (<[p := b]> m !! q).
Proof.
  intros Hq. destruct (decide (p = q)) as [->|Hne].
  - rewrite lookup_insert_eq. eauto.
  - by rewrite lookup_insert_ne.
Qed.

Lemma ScopedBool_ctor_alive (boolme : address) (m : memory) :
  is_Some (m !! boolme) →
  ScopedBool_ctor boolme m = Some ({| m_boolme := boolme |}, <[boolme := true]> m).
Proof. intros Hp. unfold ScopedBool_ctor. by rewrite write_alive. Qed.

Lemma ScopedBool_dtor_alive (this : ScopedBool) (m : memory) :
  is_Some (m !! m_boolme this) →
  ScopedBool_dtor this m = Some (<[m_boolme this := false]> m).
Proof. intros Hp. unfold ScopedBool_dtor. by rewrite write_alive. Qed.

(** A block with a guard: whatever way the body leaves it, the block is left
    the same way, with the flag written to false on top of what the body
    left in memory. *)
Lemma scoped_block_runs (boolme : address) (body : block) (m m2 : memory)
    (c : completion) :
  is_Some (m !! boolme) →
  body (<[boolme := true]> m) = Some (c, m2) →
  is_Some (m2 !! boolme) →
  scoped_block boolme body m = Some (c, <[boolme := false]> m2).
Proof.
  intros Hp Hbody Hp2. unfold scoped_block.
  rewrite ScopedBool_ctor_alive by done. simpl.
  rewrite Hbody. simpl.
  rewrite ScopedBool_dtor_alive by done. done.
Qed.

Lemma seq_block_runs (first second : block) (m m1 : memory) (c : completion) :
  first m = Some (c, m1) →
  seq_block first second m
  = match c with Normal => second m1 | _ => Some (c, m1) end.
Proof. intros H. unfold seq_block. rewrite H. by destruct c. Qed.

(** C5.  For a guard constructed on a live [bool] at [boolme]: right after
    construction the flag is true; once the block of the guard is left, by
    reaching its end, by a [return] or by an exception, the flag is false.
    For two nested guards on the same flag, the flag is true when the inner
    block starts, false once the inner block is left, and false once the
    outer block is left. *)
Theorem ScopedBool_true_inside_false_after (boolme : address) (m : memory) :
  is_Some (m !! boolme) →
  (∃ guard m1,
      ScopedBool_ctor boolme m = Some (guard, m1) ∧ m1 !! boolme = Some true)
  ∧ (∀ (body : block) c m2,
       body (<[boolme := true]> m) = Some (c, m2) →
       is_Some (m2 !! boolme) →
       ∃ m3, scoped_block boolme body m = Some (c, m3)
             ∧ m3 !! boolme = Some false)
  ∧ (∀ (inner rest : block) c2 m2,
       <[boolme := true]> (<[boolme := true]> m) !! boolme = Some true
       ∧ (inner (<[boolme := true]> (<[boolme := true]> m)) = Some (c2, m2) →
          is_Some (m2 !! boolme) →
          scoped_block boolme inner (<[boolme := true]> m)
          = Some (c2, <[boolme := false]> m2)
          ∧ <[boolme := false]> m2 !! boolme = Some false
          ∧ ∀ c3 m3,
              match c2 with
              | Normal => rest (<[boolme := false]> m2)
              | _ => Some (c2, <[boolme := false]> m2)
              end = Some (c3, m3) →
              is_Some (m3 !! boolme) →
              scoped_block boolme (seq_block (scoped_block boolme inner) rest) m
              = Some (c3, <[boolme := false]> m3)
              ∧ <[boolme := false]> m3 !! boolme = Some false)).
Proof.
  intros Hp. split; [|split].
  - eexists _, _. split; [by apply ScopedBool_ctor_alive|].
    apply lookup_insert_eq.
  - intros body c m2 Hbody Hp2. eexists. split.
    + by apply scoped_block_runs.
    + apply lookup_insert_eq.
  - intros inner rest c2 m2. split; [apply lookup_insert_eq|].
    intros Hinner Hp2.
    assert (Hin : scoped_block boolme inner (<[boolme := true]> m)
                  = Some (c2, <[boolme := false]> m2)).
    { apply scoped_block_runs; [by apply insert_alive | done | done]. }
    split; [exact Hin|]. split; [apply lookup_insert_eq|].
    intros c3 m3 Hrest Hp3. split; [|apply lookup_insert_eq].
    apply scoped_block_runs; [done | | done].
    rewrite (seq_block_runs _ _ _ _ _ Hin). exact Hrest.
Qed.

(** C5 on the flag [f]: the block is left with [f] false when its body
    runs to the end, when it returns and when it throws, and the flag is
    true where the body starts. *)
Lemma ScopedBool_scenarios :
  is_Some (memory_f !! flag_f)
  ∧ (∃ guard m1, ScopedBool_ctor flag_f memory_f = Some (guard, m1)
                 ∧ m1 !! flag_f = Some true)
  ∧ (∃ m3, scoped_block flag_f (λ m, Some (Normal, m)) memory_f = Some (Normal, m3)
           ∧ m3 !! flag_f = Some false)
  ∧ (∃ m3, scoped_block flag_f (λ m, Some (Returned, m)) memory_f = Some (Returned, m3)
           ∧ m3 !! flag_f = Some false)
  ∧ (∃ m3, scoped_block flag_f (λ m, Some (Thrown, m)) memory_f = Some (Thrown, m3)
           ∧ m3 !! flag_f = Some false).
Proof.
  assert (Hp : is_Some (memory_f !! flag_f)).
  { exists false. apply lookup_singleton_eq. }
  destruct (ScopedBool_true_inside_false_after flag_f memory_f Hp)
    as (Hnew & Hexit & _).
  assert (Hin : is_Some (<[flag_f := true]> memory_f !! flag_f)).
  { exists true. apply lookup_insert_eq. }
  refine (conj Hp (conj Hnew (conj _ (conj _ _)))).
  - exact (Hexit (λ m, Some (Normal, m)) Normal _ eq_refl Hin).
  - exact (Hexit (λ m, Some (Returned, m)) Returned _ eq_refl Hin).
  - exact (Hexit (λ m, Some (Thrown, m)) Thrown _ eq_refl Hin).
Defined.

(** C10.  Whatever the target holds when the destructor runs, the destructor
    ends with the target false and every other object as it was; a guard
    constructed on a flag that held true leaves it false, and not at the
    value held before. *)
Theorem ScopedBool_dtor_writes_false (this : ScopedBool) (m : memory) (held : bool) :
  m !! m_boolme this = Some held →
  (∃ m', ScopedBool_dtor this m = Some m'
         ∧ m' !! m_boolme this = Some false
         ∧ ∀ q, q ≠ m_boolme this → m' !! q = m !! q)
  ∧ (∃ guard m1 m2,
        ScopedBool_ctor (m_boolme this) m = Some (guard, m1)
        ∧ ScopedBool_dtor guard m1 = Some m2
        ∧ m2 !! m_boolme this = Some false
        ∧ (held = true → m2 !! m_boolme this ≠ m !! m_boolme this)).
Proof.
  intros Hheld.
  assert (Hp : is_Some (m !! m_boolme this)) by eauto.
  split.
  - eexists. split; [by apply ScopedBool_dtor_alive|].
    split; [apply lookup_insert_eq|].
    intros q Hq. by rewrite lookup_insert_ne.
  - eexists _, _, _. split; [by apply ScopedBool_ctor_alive|].
    split; [apply ScopedBool_dtor_alive; by apply insert_alive|].
    simpl. rewrite lookup_insert_eq. split; [done|].
    intros ->. by rewrite Hheld.
Qed.

(** C10 on a flag that holds true when the destructor runs. *)
Lemma ScopedBool_dtor_on_true_flag :
  (<[flag_f := true]> memory_f) !! flag_f = Some true
  ∧ ∃ m', ScopedBool_dtor {| m_boolme := flag_f |} (<[flag_f := true]> memory_f) = Some m'
          ∧ m' !! flag_f = Some false.
Proof.
  assert (Hheld : (<[flag_f := true]> memory_f) !! m_boolme {| m_boolme := flag_f |}
                  = Some true) by apply lookup_insert_eq.
  destruct (ScopedBool_dtor_writes_false _ _ _ Hheld) as ((m' & Hrun & Hfalse & _) & _).
  split; [exact Hheld|]. exists m'. split; [exact Hrun | exact Hfalse].
Defined.

(** ** Copying a guard *)

(** C6, as the specification states it, fails: [class ScopedBool] declares
    no copy operation and does not use [DeclareNoncopyableObject], so the
    compiler supplies a public copy constructor and a public copy
    assignment, and a move, for which the class has no operation of its own,
    copies. *)
Lemma ScopedBool_copy_compiles :
  Class.user_declared Class.CopyConstructor Class.ScopedBool = None
  ∧ Class.user_declared Class.CopyAssignment Class.ScopedBool = None
  ∧ Class.copy_construct_compiles Class.ScopedBool = true
  ∧ Class.copy_assign_compiles Class.ScopedBool = true
  ∧ Class.move_construct_compiles Class.ScopedBool = true
  ∧ Class.move_assign_compiles Class.ScopedBool = true.
Proof. vm_compute. repeat split. Qed.

(** C6, amended.  [ScopedBool] can be copy-constructed, copy-assigned and
    moved (a move copies), and the copy records the same address, so that
    its destructor clears the same flag.  With [DeclareNoncopyableObject]
    in its body, which the class does not have, each of these uses from
    outside the class would be rejected when compiled. *)
Theorem ScopedBool_copyable_without_DeclareNoncopyableObject
    (this : ScopedBool) (m : memory) :
  (Class.copy_construct_compiles Class.ScopedBool = true
   ∧ Class.copy_assign_compiles Class.ScopedBool = true
   ∧ Class.move_construct_compiles Class.ScopedBool = true
   ∧ Class.move_assign_compiles Class.ScopedBool = true)
  ∧ (m_boolme (ScopedBool_copy this) = m_boolme this
     ∧ ScopedBool_dtor (ScopedBool_copy this) m = ScopedBool_dtor this m)
  ∧ (Class.copy_construct_compiles (Class.DeclareNoncopyableObject Class.ScopedBool) = false
     ∧ Class.copy_assign_compiles (Class.DeclareNoncopyableObject Class.ScopedBool) = false
     ∧ Class.move_construct_compiles (Class.DeclareNoncopyableObject Class.ScopedBool) = false
     ∧ Class.move_assign_compiles (Class.DeclareNoncopyableObject Class.ScopedBool) = false).
Proof.
  split; [|split].
  - vm_compute. repeat split.
  - split; reflexivity.
  - vm_compute. repeat split.
Qed.

(** ** The try/catch macros, build by build *)

Import Preprocessor.

Lemma header_macros_tryDEBUG (b : build) :
  header_macros b !! "tryDEBUG"
  = Some (ObjectLike (if PCSX2_DEBUG b then tok_try else tok_if_true)).
Proof. destruct b as [[] []]; vm_compute; reflexivity. Qed.

Lemma header_macros_catchDEBUG (b : build) :
  header_macros b !! "catchDEBUG"
  = Some (FunctionLike ["clause"]
            (if PCSX2_DEBUG b then tok_catch ["clause"] else tok_if_false)).
Proof. destruct b as [[] []]; vm_compute; reflexivity. Qed.

Lemma header_macros_tryDEVEL (b : build) :
  header_macros b !! "tryDEVEL"
  = if PCSX2_DEVBUILD b || PCSX2_DEBUG b then Some (ObjectLike tok_try) else None.
Proof. destruct b as [[] []]; vm_compute; reflexivity. Qed.

Lemma header_macros_catchDEVEL (b : build) :
  header_macros b !! "catchDEVEL"
  = if PCSX2_DEVBUILD b || PCSX2_DEBUG b
    then Some (ObjectLike (tok_catch ["clause"])) else None.
Proof. destruct b as [[] []]; vm_compute; reflexivity. Qed.

(** C7 on the header: the developer pair.  In a build with neither flag the
    header defines neither [tryDEVEL] nor [catchDEVEL] (lines 38-39 define
    the debug pair a second time), so a use of the pair is left as it is
    written and is not the straight-line form.  In a build with either flag
    [catchDEVEL] is an object-like macro: the clause of the use is not
    substituted, the handler reads [catch (clause)] followed by the
    parenthesised clause of the use, and the pair is no conventional
    handler. *)
Theorem devel_pair_by_build (clause : list token) :
  header_macros (Build false false) !! "tryDEVEL" = None
  ∧ header_macros (Build false false) !! "catchDEVEL" = None
  ∧ handler_pair (header_macros (Build false false)) "tryDEVEL" "catchDEVEL" clause
    = (["tryDEVEL"], ["catchDEVEL"; "("] ++ clause ++ [")"])
  ∧ ¬ straight_line (header_macros (Build false false)) "tryDEVEL" "catchDEVEL"
  ∧ (∀ b, PCSX2_DEVBUILD b || PCSX2_DEBUG b = true →
          handler_pair (header_macros b) "tryDEVEL" "catchDEVEL" clause
          = (tok_try, tok_catch ["clause"] ++ ["("] ++ clause ++ [")"])
          ∧ ¬ conventional_handler (header_macros b) "tryDEVEL" "catchDEVEL").
Proof.
  assert (Hexp : ∀ b cl, PCSX2_DEVBUILD b || PCSX2_DEBUG b = true →
            handler_pair (header_macros b) "tryDEVEL" "catchDEVEL" cl
            = (tok_try, tok_catch ["clause"] ++ ["("] ++ cl ++ [")"])).
  { intros b cl Hb. unfold handler_pair, expand.
    rewrite header_macros_tryDEVEL, header_macros_catchDEVEL, Hb.
    vm_compute. reflexivity. }
  assert (Hrel : ∀ cl,
            handler_pair (header_macros (Build false false)) "tryDEVEL" "catchDEVEL" cl
            = (["tryDEVEL"], ["catchDEVEL"; "("] ++ cl ++ [")"])).
  { intros cl. unfold handler_pair, expand.
    rewrite header_macros_tryDEVEL, header_macros_catchDEVEL.
    vm_compute. reflexivity. }
  split; [by rewrite header_macros_tryDEVEL|].
  split; [by rewrite header_macros_catchDEVEL|].
  split; [apply Hrel|]. split.
  - intros Hsl. specialize (Hsl []). rewrite Hrel in Hsl. discriminate.
  - intros b Hb. split; [by apply Hexp|].
    intros Hconv. specialize (Hconv []). rewrite (Hexp b [] Hb) in Hconv.
    discriminate.
Qed.

(** The two pairs on a use that catches [std::exception &], in the release
    build and in the debug build. *)
Example pairs_in_release_build :
  handler_pair (header_macros (Build false false)) "tryDEBUG" "catchDEBUG"
    ["std::exception"; "&"]
  = (["if"; "("; "true"; ")"], ["if"; "("; "false"; ")"])
  ∧ handler_pair (header_macros (Build false false)) "tryDEVEL" "catchDEVEL"
      ["std::exception"; "&"]
    = (["tryDEVEL"], ["catchDEVEL"; "("; "std::exception"; "&"; ")"]).
Proof. split; vm_compute; reflexivity. Qed.

Example pairs_in_debug_build :
  handler_pair (header_macros (Build true false)) "tryDEBUG" "catchDEBUG"
    ["std::exception"; "&"]
  = (["try"], ["catch"; "("; "std::exception"; "&"; ")"])
  ∧ handler_pair (header_macros (Build true false)) "tryDEVEL" "catchDEVEL"
      ["std::exception"; "&"]
    = (["try"], ["catch"; "("; "clause"; ")"; "("; "std::exception"; "&"; ")"]).
Proof. split; vm_compute; reflexivity. Qed.

(** ** The size constants *)

(** C8.  On either pointer size the constants have the values of the table:
    [_1kb] is 1024 and [_4kb] ... [_256kb] its multiples, [_1mb] is
    1024 * 1024 and [_8mb] ... [_256mb] its multiples, [_1gb] is
    1024 * [_1mb], [_4gb] is 4 * 1024 * 1024 * 1024 and the sum of four
    [_1gb]; the constants up to [_256kb] have the pointer-sized signed type
    and those from [_1mb] on the 64-bit signed type. *)
Theorem size_constants_are_exact (ps : Sizes.pointer_size) :
  let v c := Sizes.v_int (c ps) in
  let t c := Sizes.v_type (c ps) in
  (v Sizes._1kb = 1024 ∧ v Sizes._4kb = 4 * 1024 ∧ v Sizes._16kb = 16384
   ∧ v Sizes._32kb = 32 * 1024 ∧ v Sizes._64kb = 64 * 1024
   ∧ v Sizes._128kb = 128 * 1024 ∧ v Sizes._256kb = 256 * 1024)
  ∧ (v Sizes._1mb = 1024 * 1024 ∧ v Sizes._8mb = 8 * v Sizes._1mb
     ∧ v Sizes._16mb = 16 * v Sizes._1mb ∧ v Sizes._32mb = 32 * v Sizes._1mb
     ∧ v Sizes._64mb = 64 * v Sizes._1mb ∧ v Sizes._256mb = 268435456
     ∧ v Sizes._1gb = 1024 * v Sizes._1mb
     ∧ v Sizes._4gb = 4 * 1024 * 1024 * 1024)
  ∧ Sizes.add ps (Sizes.add ps (Sizes.add ps (Sizes._1gb ps) (Sizes._1gb ps))
                    (Sizes._1gb ps)) (Sizes._1gb ps)
    = Sizes._4gb ps
  ∧ (t Sizes._1kb = Sizes.T_sptr ∧ t Sizes._4kb = Sizes.T_sptr
     ∧ t Sizes._16kb = Sizes.T_sptr ∧ t Sizes._32kb = Sizes.T_sptr
     ∧ t Sizes._64kb = Sizes.T_sptr ∧ t Sizes._128kb = Sizes.T_sptr
     ∧ t Sizes._256kb = Sizes.T_sptr)
  ∧ (t Sizes._1mb = Sizes.T_s64 ∧ t Sizes._8mb = Sizes.T_s64
     ∧ t Sizes._16mb = Sizes.T_s64 ∧ t Sizes._32mb = Sizes.T_s64
     ∧ t Sizes._64mb = Sizes.T_s64 ∧ t Sizes._256mb = Sizes.T_s64
     ∧ t Sizes._1gb = Sizes.T_s64 ∧ t Sizes._4gb = Sizes.T_s64)
  ∧ Sizes.width ps Sizes.T_sptr
    = match ps with Sizes.P32 => 32 | Sizes.P64 => 64 end
  ∧ Sizes.width ps Sizes.T_s64 = 64.
Proof. destruct ps; vm_compute; repeat split. Qed.

(** * Further properties of the header *)

(** ** Stepping and validity *)





(** X3.  An enumeration has a valid value exactly when [FIRST < COUNT]; when
    it has one, [FIRST] is valid and so is the value just below [COUNT];
    with [COUNT <= FIRST] every value is rejected. *)
Theorem EnumIsValid_inhabited_iff (FIRST COUNT : enumName) :
  ((∃ k, EnumIsValid FIRST COUNT k = true) ↔ int_value FIRST < int_value COUNT)
  ∧ (int_value FIRST < int_value COUNT →
     EnumIsValid FIRST COUNT FIRST = true
     ∧ EnumIsValid FIRST COUNT (snd (operator_dec COUNT)) = true)
  ∧ (int_value COUNT ≤ int_value FIRST →
     ∀ k, EnumIsValid FIRST COUNT k = false).
Proof.
  pose proof (int_value_range FIRST) as Hf.
  split; [|split].
  - split.
    + intros [k Hk]. apply EnumIsValid_true in Hk. lia.
    + intros Hlt. exists FIRST. apply EnumIsValid_true. lia.
  - intros Hlt. split; apply EnumIsValid_true; [lia|].
    rewrite operator_dec_value; lia.
  - intros Hle k. apply EnumIsValid_false. lia.
Qed.

(** X3 on the three-element enumeration, and on the empty one whose
    [FIRST] and [COUNT] are both [A]. *)
Lemma EnumIsValid_inhabited_examples :
  int_value E_FIRST < int_value E_COUNT
  ∧ EnumIsValid E_FIRST E_COUNT (snd (operator_dec E_COUNT)) = true
  ∧ int_value E_A ≤ int_value E_A
  ∧ EnumIsValid E_A E_A E_B = false.
Proof.
  assert (Hlt : int_value E_FIRST < int_value E_COUNT) by (vm_compute; reflexivity).
  assert (Hle : int_value E_A ≤ int_value E_A) by (vm_compute; discriminate).
  refine (conj Hlt (conj _ (conj Hle _))).
  - exact (proj2 (proj1 (proj2 (EnumIsValid_inhabited_iff E_FIRST E_COUNT)) Hlt)).
  - exact (proj2 (proj2 (EnumIsValid_inhabited_iff E_A E_A)) Hle E_B).
Defined.

(** ** Loops and the sentinel *)

#[local] Instance int_value_inj : Inj (=) (=) int_value.
Proof. intros a b. apply enum_eq. Qed.



(** ** What a guard leaves alone *)

(** X7.  A guard writes its own flag and nothing else: the memory the body
    starts in differs from the memory before the block at the flag only,
    every other object holds after the block what the body left in it, and
    no object appears or disappears. *)
Theorem ScopedBool_writes_only_its_flag (boolme other : address) (body : block)
    (m m2 : memory) (c : completion) :
  other ≠ boolme →
  is_Some (m !! boolme) →
  body (<[boolme := true]> m) = Some (c, m2) →
  is_Some (m2 !! boolme) →
  ∃ guard m1 m3,
    ScopedBool_ctor boolme m = Some (guard, m1)
    ∧ m1 = <[boolme := true]> m
    ∧ m1 !! other = m !! other
    ∧ (dom m1 : gset address) = dom m
    ∧ scoped_block boolme body m = Some (c, m3)
    ∧ m3 !! other = m2 !! other
    ∧ (dom m3 : gset address) = dom m2.
Proof.
  intros Hne Hp Hbody Hp2.
  exists {| m_boolme := boolme |}, (<[boolme := true]> m), (<[boolme := false]> m2).
  split; [by apply ScopedBool_ctor_alive|]. split; [done|].
  split; [by apply lookup_insert_ne|].
  split; [by apply dom_insert_lookup_L|].
  split; [by apply scoped_block_runs|].
  split; [by apply lookup_insert_ne | by apply dom_insert_lookup_L].
Qed.

(** X7 on the flag [f] beside a second flag that holds true, around a
    body that throws. *)
Lemma ScopedBool_writes_only_its_flag_scenario :
  ∃ guard m1 m3,
    ScopedBool_ctor flag_f (<[2%positive := true]> memory_f) = Some (guard, m1)
    ∧ m1 = <[flag_f := true]> (<[2%positive := true]> memory_f)
    ∧ m1 !! 2%positive = <[2%positive := true]> memory_f !! 2%positive
    ∧ (dom m1 : gset address) = dom (<[2%positive := true]> memory_f)
    ∧ scoped_block flag_f (leave Thrown) (<[2%positive := true]> memory_f)
      = Some (Thrown, m3)
    ∧ m3 !! 2%positive
      = <[flag_f := true]> (<[2%positive := true]> memory_f) !! 2%positive
    ∧ (dom m3 : gset address)
      = dom (<[flag_f := true]> (<[2%positive := true]> memory_f)).
Proof.
  apply (ScopedBool_writes_only_its_flag flag_f 2%positive (leave Thrown)
           (<[2%positive := true]> memory_f)
           (<[flag_f := true]> (<[2%positive := true]> memory_f)) Thrown).
  - discriminate.
  - exists false. reflexivity.
  - reflexivity.
  - exists true. reflexivity.
Defined.

(** X8.  Nested guards on two different flags: where the inner body starts
    both flags are true; when the inner block is left its flag is false and
    the outer flag is still true, provided the inner body left it so; when
    the outer block is left both are false. *)
Theorem nested_guards_on_two_flags (outer inner : address) (body : block)
    (m m2 : memory) (c : completion) :
  outer ≠ inner →
  is_Some (m !! outer) →
  is_Some (m !! inner) →
  body (<[inner := true]> (<[outer := true]> m)) = Some (c, m2) →
  m2 !! outer = Some true →
  is_Some (m2 !! inner) →
  (<[inner := true]> (<[outer := true]> m) !! outer = Some true
   ∧ <[inner := true]> (<[outer := true]> m) !! inner = Some true)
  ∧ (scoped_block inner body (<[outer := true]> m)
     = Some (c, <[inner := false]> m2)
     ∧ <[inner := false]> m2 !! outer = Some true
     ∧ <[inner := false]> m2 !! inner = Some false)
  ∧ (scoped_block outer (scoped_block inner body) m
     = Some (c, <[outer := false]> (<[inner := false]> m2))
     ∧ <[outer := false]> (<[inner := false]> m2) !! outer = Some false
     ∧ <[outer := false]> (<[inner := false]> m2) !! inner = Some false).
Proof.
  intros Hne Hpo Hpi Hbody Hkept Hpi2.
  assert (Hin : scoped_block inner body (<[outer := true]> m)
                = Some (c, <[inner := false]> m2)).
  { apply scoped_block_runs; [by apply insert_alive | done | done]. }
  split; [|split].
  - split; [|apply lookup_insert_eq].
    rewrite lookup_insert_ne by done. apply lookup_insert_eq.
  - split; [exact Hin|]. split; [|apply lookup_insert_eq].
    by rewrite lookup_insert_ne.
  - split; [|split].
    + apply scoped_block_runs; [done | exact Hin |].
      apply insert_alive. eauto.
    + apply lookup_insert_eq.
    + rewrite lookup_insert_ne by done. apply lookup_insert_eq.
Qed.

(** X8 on the flag [f] and a second flag, around a body that returns. *)
Lemma nested_guards_on_two_flags_scenario :
  scoped_block 2%positive (leave Returned) (<[flag_f := true]> (<[2%positive := false]> memory_f))
  = Some (Returned,
          <[2%positive := false]>
            (<[2%positive := true]> (<[flag_f := true]> (<[2%positive := false]> memory_f))))
  ∧ <[2%positive := false]>
      (<[2%positive := true]> (<[flag_f := true]> (<[2%positive := false]> memory_f)))
    !! flag_f = Some true.
Proof.
  destruct (nested_guards_on_two_flags flag_f 2%positive (leave Returned)
              (<[2%positive := false]> memory_f)
              (<[2%positive := true]> (<[flag_f := true]> (<[2%positive := false]> memory_f)))
              Returned) as (_ & (Hrun & Hkept & _) & _).
  - discriminate.
  - exists false. reflexivity.
  - exists false. reflexivity.
  - reflexivity.
  - reflexivity.
  - exists true. reflexivity.
  - exact (conj Hrun Hkept).
Defined.

(** X9.  A guard around a block that does nothing amounts to one write of
    false: the memory after the block is the memory before it with the flag
    false, so the block leaves the memory as it found it exactly when the
    flag was false before. *)
Theorem guard_around_nothing_clears_the_flag (boolme : address) (m : memory)
    (c : completion) :
  is_Some (m !! boolme) →
  scoped_block boolme (leave c) m = Some (c, <[boolme := false]> m)
  ∧ (<[boolme := false]> m = m ↔ m !! boolme = Some false).
Proof.
  intros Hp. split.
  - rewrite <- (insert_insert_eq m boolme false true).
    apply scoped_block_runs; [done | done |].
    by apply insert_alive.
  - split.
    + intros Heq. rewrite <- Heq. apply lookup_insert_eq.
    + apply insert_id.
Qed.

(** X9 on the flag [f], which is false before the block. *)
Lemma guard_around_nothing_on_f :
  is_Some (memory_f !! flag_f)
  ∧ scoped_block flag_f (leave Normal) memory_f = Some (Normal, <[flag_f := false]> memory_f)
  ∧ <[flag_f := false]> memory_f = memory_f.
Proof.
  assert (Hp : is_Some (memory_f !! flag_f)) by (exists false; reflexivity).
  destruct (guard_around_nothing_clears_the_flag flag_f memory_f Normal Hp)
    as (Hrun & Hsame).
  refine (conj Hp (conj Hrun _)). apply Hsame. reflexivity.
Defined.

(** X10.  Destroying a guard twice, or destroying a guard and then a copy
    of it, is destroying it once: the second destructor writes false over
    false and leaves the memory as the first left it. *)
Theorem ScopedBool_dtor_of_a_copy_changes_nothing (this : ScopedBool) (m : memory) :
  is_Some (m !! m_boolme this) →
  ∃ m', ScopedBool_dtor this m = Some m'
        ∧ ScopedBool_dtor this m' = Some m'
        ∧ ScopedBool_dtor (ScopedBool_copy this) m' = Some m'.
Proof.
  intros Hp. exists (<[m_boolme this := false]> m).
  assert (Hagain : ScopedBool_dtor this (<[m_boolme this := false]> m)
                   = Some (<[m_boolme this := false]> m)).
  { rewrite ScopedBool_dtor_alive by (by apply insert_alive).
    by rewrite insert_insert_eq. }
  split; [by apply ScopedBool_dtor_alive|]. split; exact Hagain.
Qed.

(** X10 on a guard of the flag [f]. *)
Lemma ScopedBool_dtor_of_a_copy_on_f :
  ∃ m', ScopedBool_dtor {| m_boolme := flag_f |} (<[flag_f := true]> memory_f) = Some m'
        ∧ ScopedBool_dtor {| m_boolme := flag_f |} m' = Some m'
        ∧ ScopedBool_dtor (ScopedBool_copy {| m_boolme := flag_f |}) m' = Some m'.
Proof.
  apply (ScopedBool_dtor_of_a_copy_changes_nothing {| m_boolme := flag_f |}).
  exists true. reflexivity.
Defined.

(** ** DeclareNoncopyableObject on any class *)

Lemma user_declared_app (k : Class.member) (c c' : Class.class_body) :
  Class.user_declared k (c ++ c')
  = match Class.user_declared k c with
    | Some d => Some d
    | None => Class.user_declared k c'
    end.
Proof.
  unfold Class.user_declared. induction c as [|d c IH]; [done|].
  simpl. case_decide; [done|].
  destruct (list_find _ c) as [[i d']|]; simpl in *;
    destruct (list_find _ (c ++ c')) as [[j d'']|]; simpl in *; done.
Qed.

(** X11.  In a class body that declares no copy operation of its own,
    [DeclareNoncopyableObject] makes copy construction and copy assignment
    from outside the class fail to compile; a move fails too unless the
    class declares that move operation itself; and the declarations of every
    other member stay as the class wrote them. *)
Theorem DeclareNoncopyableObject_forbids_copies (c : Class.class_body) :
  Class.user_declared Class.CopyConstructor c = None →
  Class.user_declared Class.CopyAssignment c = None →
  Class.copy_construct_compiles (Class.DeclareNoncopyableObject c) = false
  ∧ Class.copy_assign_compiles (Class.DeclareNoncopyableObject c) = false
  ∧ (Class.user_declared Class.MoveConstructor c = None →
     Class.move_construct_compiles (Class.DeclareNoncopyableObject c) = false)
  ∧ (Class.user_declared Class.MoveAssignment c = None →
     Class.move_assign_compiles (Class.DeclareNoncopyableObject c) = false)
  ∧ (∀ k, k ≠ Class.CopyConstructor → k ≠ Class.CopyAssignment →
          Class.user_declared k (Class.DeclareNoncopyableObject c)
          = Class.user_declared k c).
Proof.
  intros Hcc Hca.
  assert (Hcc' : Class.user_declared Class.CopyConstructor (Class.DeclareNoncopyableObject c)
                 = Some (Class.Decl Class.CopyConstructor Class.Private Class.NotImplemented)).
  { unfold Class.DeclareNoncopyableObject. rewrite user_declared_app, Hcc. done. }
  assert (Hca' : Class.user_declared Class.CopyAssignment (Class.DeclareNoncopyableObject c)
                 = Some (Class.Decl Class.CopyAssignment Class.Private Class.Deleted)).
  { unfold Class.DeclareNoncopyableObject. rewrite user_declared_app, Hca. done. }
  assert (Hother : ∀ k, k ≠ Class.CopyConstructor → k ≠ Class.CopyAssignment →
                        Class.user_declared k (Class.DeclareNoncopyableObject c)
                        = Class.user_declared k c).
  { intros k Hk1 Hk2. unfold Class.DeclareNoncopyableObject.
    rewrite user_declared_app. destruct (Class.user_declared k c); [done|].
    unfold Class.user_declared. simpl. repeat case_decide; done. }
  assert (Hcopy : Class.copy_construct_compiles (Class.DeclareNoncopyableObject c) = false).
  { unfold Class.copy_construct_compiles, Class.copy_constructor. by rewrite Hcc'. }
  assert (Hassign : Class.copy_assign_compiles (Class.DeclareNoncopyableObject c) = false).
  { unfold Class.copy_assign_compiles, Class.copy_assignment. by rewrite Hca'. }
  split; [exact Hcopy|]. split; [exact Hassign|]. split; [|split; [|exact Hother]].
  - intros Hmc. unfold Class.move_construct_compiles, Class.move_constructor.
    rewrite Hother, Hmc by done. unfold Class.declares at 1.
    rewrite Hcc'. rewrite bool_decide_eq_true_2 by eauto. exact Hcopy.
  - intros Hma. unfold Class.move_assign_compiles, Class.move_assignment.
    rewrite Hother, Hma by done. unfold Class.declares at 1.
    rewrite Hcc'. rewrite bool_decide_eq_true_2 by eauto. exact Hassign.
Qed.

(** X11 on the body of [ScopedBool] with the macro added. *)
Lemma DeclareNoncopyableObject_on_ScopedBool :
  Class.user_declared Class.CopyConstructor Class.ScopedBool = None
  ∧ Class.user_declared Class.CopyAssignment Class.ScopedBool = None
  ∧ Class.copy_construct_compiles (Class.DeclareNoncopyableObject Class.ScopedBool) = false
  ∧ Class.copy_assign_compiles (Class.DeclareNoncopyableObject Class.ScopedBool) = false
  ∧ Class.user_declared Class.Destructor (Class.DeclareNoncopyableObject Class.ScopedBool)
    = Class.user_declared Class.Destructor Class.ScopedBool.
Proof.
  destruct (DeclareNoncopyableObject_forbids_copies Class.ScopedBool eq_refl eq_refl)
    as (Hcopy & Hassign & _ & _ & Hother).
  refine (conj eq_refl (conj eq_refl (conj Hcopy (conj Hassign _)))).
  apply Hother; discriminate.
Defined.

(** ** The macros of the header, read strictly *)

(** X13.  In every build, each [#define] of lines 26-40 that is read either
    introduces a name or repeats the definition the name already has: the
    second definition of the debug pair (lines 38-39) is read only in builds
    where lines 30-31 gave the same one.  Read in a debug build it would be a
    redefinition that differs. *)
Theorem lines_26_40_never_redefine_differently (b : build) :
  preprocess_strict (command_line b) lines_26_40 = Some (header_macros b)
  ∧ (PCSX2_DEBUG b = true →
     defines_strict (header_macros b)
       [ ("tryDEBUG", ObjectLike tok_if_true);
         ("catchDEBUG", FunctionLike ["clause"] tok_if_false) ] = None).
Proof.
  destruct b as [[] []]; (split; [vm_compute; reflexivity|]);
    intros Hb; first [discriminate Hb | vm_compute; reflexivity].
Qed.

(** X13 in the build with both flags. *)
Lemma lines_26_40_in_debug_devbuild :
  preprocess_strict (command_line (Build true true)) lines_26_40
  = Some (header_macros (Build true true))
  ∧ defines_strict (header_macros (Build true true))
      [ ("tryDEBUG", ObjectLike tok_if_true);
        ("catchDEBUG", FunctionLike ["clause"] tok_if_false) ] = None.
Proof.
  destruct (lines_26_40_never_redefine_differently (Build true true)) as (Hrun & Hbad).
  exact (conj Hrun (Hbad eq_refl)).
Defined.

(** ** The translation aliases *)

Lemma run_group_ifndef (tbl : macro_table) (d : string * macro) :
  run_group tbl (ifndef d) = tbl ∪ {[ d.1 := d.2 ]}.
Proof.
  unfold run_group, ifndef. simpl.
  destruct (tbl !! d.1) as [m|] eqn:Hd.
  - rewrite bool_decide_eq_true_2 by eauto. simpl.
    apply map_eq. intros n. rewrite lookup_union.
    destruct (decide (d.1 = n)) as [<-|Hne].
    + rewrite Hd, lookup_singleton_eq. done.
    + rewrite lookup_singleton_ne by done. by destruct (tbl !! n).
  - rewrite bool_decide_eq_false_2 by (by intros [? ?]). simpl.
    unfold define. by apply insert_union_singleton_r.
Qed.

(** Definitions under [#ifndef] fill in the names that have none. *)
Lemma preprocess_ifndef (ds : list (string * macro)) :
  ∀ tbl : macro_table, preprocess tbl (ifndef <$> ds) = tbl ∪ list_to_map ds.
Proof.
  unfold preprocess. induction ds as [|d ds IH]; intros tbl; simpl.
  - by rewrite (right_id_L ∅ (∪)).
  - rewrite IH, run_group_ifndef.
    rewrite <- (assoc_L (∪)). by rewrite <- insert_union_singleton_l.
Qed.

(** X14.  The aliases under [#ifndef] ([_], [_t], [_d], [pxL], [pxLt],
    [pxDt]) never replace a definition made before the header was read: the
    table afterwards is the earlier table, completed by the header's
    definitions for the names it lacked.  The aliases [pxE], [pxEt] and
    [pxE_dev] are defined unconditionally: the header's definitions replace
    whatever was there.  Neither group touches any other name. *)
Theorem aliases_guarded_and_unguarded (tbl : macro_table) :
  guarded_aliases tbl = tbl ∪ list_to_map (lines_175_185 ++ lines_193_203)
  ∧ message_aliases tbl = list_to_map lines_257_263 ∪ tbl
  ∧ (∀ n d, tbl !! n = Some d → guarded_aliases tbl !! n = Some d)
  ∧ (∀ n d, (n, d) ∈ lines_175_185 ++ lines_193_203 → tbl !! n = None →
            guarded_aliases tbl !! n = Some d)
  ∧ (∀ n d, (n, d) ∈ lines_257_263 → message_aliases tbl !! n = Some d)
  ∧ (∀ n, n ∉ (lines_175_185 ++ lines_193_203).*1 →
          guarded_aliases tbl !! n = tbl !! n)
  ∧ (∀ n, n ∉ lines_257_263.*1 → message_aliases tbl !! n = tbl !! n).
Proof.
  assert (Hg : guarded_aliases tbl = tbl ∪ list_to_map (lines_175_185 ++ lines_193_203))
    by apply preprocess_ifndef.
  assert (Hm : message_aliases tbl = list_to_map lines_257_263 ∪ tbl).
  { unfold message_aliases, lines_257_263, define. simpl.
    apply map_eq. intros n. rewrite lookup_union.
    rewrite !lookup_insert. rewrite lookup_empty.
    repeat case_decide; simpl; by destruct (tbl !! n). }
  assert (Hnd1 : NoDup (lines_175_185 ++ lines_193_203).*1)
    by (apply (bool_decide_unpack _); vm_compute; exact I).
  assert (Hnd2 : NoDup lines_257_263.*1)
    by (apply (bool_decide_unpack _); vm_compute; exact I).
  split; [exact Hg|]. split; [exact Hm|].
  split; [|split; [|split; [|split]]].
  - intros n d Hn. rewrite Hg, lookup_union, Hn.
    by destruct (list_to_map _ !! n).
  - intros n d Hin Hn. rewrite Hg, lookup_union, Hn.
    rewrite (elem_of_list_to_map_1 _ _ _ Hnd1 Hin). done.
  - intros n d Hin. rewrite Hm, lookup_union.
    rewrite (elem_of_list_to_map_1 _ _ _ Hnd2 Hin). by destruct (tbl !! n).
  - intros n Hn. rewrite Hg, lookup_union.
    rewrite (not_elem_of_list_to_map_1 _ _ Hn). by destruct (tbl !! n).
  - intros n Hn. rewrite Hm, lookup_union.
    rewrite (not_elem_of_list_to_map_1 _ _ Hn). by destruct (tbl !! n).
Qed.


(** ** The size constants as a table *)

(** X16.  In declaration order the constants are the powers of two with
    exponents 10, 12, 14, 15, 16, 17, 18, 20, 23, 24, 25, 26, 28, 30 and 32,
    the same on 32-bit and 64-bit pointers.  Every constant except [_4gb]
    keeps its value when converted to [int], [sptr] or [s64] on either
    pointer size; [_4gb] converts to 0 in [int] and in a 32-bit [sptr], and
    keeps its value in a 64-bit [sptr]. *)
Theorem size_constants_table (ps : Sizes.pointer_size) :
  Sizes.v_int <$> Sizes.table ps
  = (λ k, 2 ^ k) <$> [10; 12; 14; 15; 16; 17; 18; 20; 23; 24; 25; 26; 28; 30; 32]
  ∧ (∀ c t ps', c ∈ Sizes.table ps → c ≠ Sizes._4gb ps →
       Sizes.v_int (Sizes.static_const ps' t c) = Sizes.v_int c)
  ∧ Sizes.v_int (Sizes.static_const ps Sizes.T_int (Sizes._4gb ps)) = 0
  ∧ Sizes.v_int (Sizes.static_const Sizes.P32 Sizes.T_sptr (Sizes._4gb ps)) = 0
  ∧ Sizes.v_int (Sizes.static_const Sizes.P64 Sizes.T_sptr (Sizes._4gb ps))
    = Sizes.v_int (Sizes._4gb ps).
Proof.
  split; [destruct ps; vm_compute; reflexivity|].
  split; [|destruct ps; vm_compute; repeat split].
  intros c t ps' Hin Hne. unfold Sizes.table in Hin.
  repeat (apply elem_of_cons in Hin as [->|Hin];
          [first [ by destruct Hne
                 | destruct ps, t, ps'; vm_compute; reflexivity ]|]).
  by apply elem_of_nil in Hin.
Qed.

(** * The operators on an enumeration of any underlying type *)

(** Arithmetic on the conversions: the types are taken one by one and the
    reductions modulo a power of two are turned into linear facts. *)
Ltac typed_arith :=
  cbv [Typed.in_range Typed.lo Typed.hi Typed.convert Typed.is_signed Typed.bits
       Typed.compare_type Typed.common_with_int Typed.promoted Typed.promote
       Typed.underlying Typed.fixed Typed.e_FIRST Typed.e_COUNT
       Typed.to_int Typed.to_enum CInt.wrap CInt.swrap
       CInt.min_signed CInt.max_signed] in *;
  repeat match goal with
         | |- context [Z.pow ?a ?b] =>
             let v := eval vm_compute in (Z.pow a b) in change (Z.pow a b) with v
         | H : context [Z.pow ?a ?b] |- _ =>
             let v := eval vm_compute in (Z.pow a b) in change (Z.pow a b) with v in H
         end;
  try (Z.div_mod_to_equations; lia).

Lemma convert_id (t : Typed.itype) (z : Z) :
  Typed.in_range t z → Typed.convert t z = z.
Proof. intros H. destruct t; typed_arith. Qed.

Lemma convert_in_range (t : Typed.itype) (z : Z) :
  Typed.in_range t (Typed.convert t z).
Proof. destruct t; typed_arith. Qed.

Lemma to_int_id (z : Z) :
  CInt.min_signed ≤ z ≤ CInt.max_signed → Typed.to_int z = z.
Proof. apply CInt.wrap_id. Qed.

Lemma to_int_fits (z : Z) :
  CInt.min_signed ≤ Typed.to_int z ≤ CInt.max_signed.
Proof. apply CInt.wrap_range. Qed.

(** An [int] operand in the type of the comparison: itself in a signed
    type, itself or itself plus the modulus in an unsigned one. *)
Lemma compare_operand (e : Typed.enumeration) (x : Z) :
  CInt.min_signed ≤ x ≤ CInt.max_signed →
  Typed.convert (Typed.compare_type e) x
  = if Typed.is_signed (Typed.compare_type e) then x
    else if 0 <=? x then x else x + 2 ^ Typed.bits (Typed.compare_type e).
Proof.
  intros H. destruct e as [U f F C].
  destruct (Z.leb_spec 0 x); destruct U, f; typed_arith.
Qed.

(** The bounds of a conforming enumeration are values of the type of the
    comparison. *)
Lemma conforming_bounds (e : Typed.enumeration) :
  Typed.conforming e →
  Typed.in_range (Typed.compare_type e) (Typed.e_FIRST e)
  ∧ Typed.in_range (Typed.compare_type e) (Typed.e_COUNT e).
Proof.
  destruct e as [U f F C]. intros (HF & HC & Hnf). simpl in *.
  destruct f.
  - destruct U; typed_arith.
  - destruct (Hnf eq_refl) as ([-> | ->] & HF' & HC'); typed_arith.
Qed.

Lemma conforming_COUNT (e : Typed.enumeration) :
  Typed.conforming e →
  Typed.convert (Typed.compare_type e) (Typed.e_COUNT e) = Typed.e_COUNT e.
Proof. intros He. apply convert_id. by apply conforming_bounds. Qed.

Lemma conforming_FIRST (e : Typed.enumeration) :
  Typed.conforming e →
  Typed.convert (Typed.compare_type e) (Typed.e_FIRST e) = Typed.e_FIRST e.
Proof. intros He. apply convert_id. by apply conforming_bounds. Qed.

(** A value that both [int] and the underlying type represent is compared
    as itself. *)
Lemma safe_operand (e : Typed.enumeration) (x : Z) :
  Typed.conforming e →
  Typed.in_range (Typed.underlying e) x →
  CInt.min_signed ≤ x ≤ CInt.max_signed →
  Typed.convert (Typed.compare_type e) (Typed.to_int x) = x.
Proof.
  intros He Hx Hi. rewrite to_int_id by done. apply convert_id.
  destruct e as [U f F C]. destruct He as (HF & HC & Hnf). simpl in *.
  destruct f.
  - destruct U; typed_arith.
  - destruct (Hnf eq_refl) as ([-> | ->] & HF' & HC'); typed_arith.
Qed.

Section SafeValues.

Variable e : Typed.enumeration.
Hypothesis He : Typed.conforming e.
Variable x : Z.
Hypothesis Hx : Typed.in_range (Typed.underlying e) x.
Hypothesis Hi : CInt.min_signed ≤ x ≤ CInt.max_signed.

Lemma typed_operator_lt_safe :
  Typed.operator_lt e x pxEnumEnd = (x <? Typed.e_COUNT e).
Proof. unfold Typed.operator_lt. by rewrite safe_operand, conforming_COUNT. Qed.

Lemma typed_operator_eq_safe :
  Typed.operator_eq e x pxEnumEnd = (x =? Typed.e_COUNT e).
Proof. unfold Typed.operator_eq. by rewrite safe_operand, conforming_COUNT. Qed.

Lemma typed_EnumIsValid_safe :
  Typed.EnumIsValid e x = (x >=? Typed.e_FIRST e) && (x <? Typed.e_COUNT e).
Proof.
  unfold Typed.EnumIsValid.
  by rewrite safe_operand, conforming_COUNT, conforming_FIRST.
Qed.

End SafeValues.

Lemma typed_operator_inc_safe (U : Typed.itype) (v : Z) :
  CInt.min_signed ≤ v → v + 1 ≤ CInt.max_signed → Typed.in_range U (v + 1) →
  Typed.operator_inc U v = (v + 1, v + 1).
Proof.
  intros Hlo Hhi Hr. unfold Typed.operator_inc, Typed.to_enum.
  rewrite (to_int_id v) by (unfold CInt.min_signed, CInt.max_signed in *; lia).
  rewrite (CInt.wrap_id (v + 1)) by (unfold CInt.min_signed, CInt.max_signed in *; lia).
  by rewrite convert_id.
Qed.


(** The operators of [ImplementEnumOperators] above are those of [Typed] on
    an enumeration stored in an [int]. *)
Lemma int_enumeration_is_typed (fixed : bool) (FIRST COUNT v : enumName) :
  let e := Typed.Enumeration Typed.s32 fixed (int_value FIRST) (int_value COUNT) in
  Typed.conforming e
  ∧ Typed.operator_inc Typed.s32 (int_value v)
    = (int_value (fst (operator_inc v)), int_value (snd (operator_inc v)))
  ∧ Typed.operator_dec Typed.s32 (int_value v)
    = (int_value (fst (operator_dec v)), int_value (snd (operator_dec v)))
  ∧ Typed.operator_inc_post Typed.s32 (int_value v)
    = (int_value (fst (operator_inc_post v)), int_value (snd (operator_inc_post v)))
  ∧ Typed.operator_dec_post Typed.s32 (int_value v)
    = (int_value (fst (operator_dec_post v)), int_value (snd (operator_dec_post v)))
  ∧ Typed.operator_eq e (int_value v) pxEnumEnd = operator_eq COUNT v pxEnumEnd
  ∧ Typed.operator_ne e (int_value v) pxEnumEnd = operator_ne COUNT v pxEnumEnd
  ∧ Typed.EnumIsValid e (int_value v) = EnumIsValid FIRST COUNT v.
Proof.
  intros e.
  pose proof (int_value_range v) as Hv.
  pose proof (int_value_range FIRST) as HF.
  pose proof (int_value_range COUNT) as HC.
  assert (He : Typed.conforming e).
  { unfold Typed.conforming, e. simpl. split; [typed_arith|].
    split; [typed_arith|]. intros _. split; [by left | done]. }
  assert (Hr : Typed.in_range (Typed.underlying e) (int_value v))
    by (unfold e; typed_arith).
  assert (Hstore : ∀ z, Typed.to_enum Typed.s32 (CInt.wrap z) = CInt.wrap z).
  { intros z. apply convert_id. pose proof (CInt.wrap_range z). typed_arith. }
  split; [exact He|].
  unfold Typed.operator_inc, Typed.operator_dec, Typed.operator_inc_post,
    Typed.operator_dec_post.
  rewrite !Hstore, (to_int_id _ Hv).
  repeat split.
  - by rewrite typed_operator_eq_safe.
  - unfold Typed.operator_ne. fold (Typed.operator_eq e (int_value v) pxEnumEnd).
    by rewrite typed_operator_eq_safe.
  - by rewrite typed_EnumIsValid_safe.
Qed.

(** ** Stepping, on any underlying type *)

(** The post-decrement scenario on the three-element enumeration stored in
    an [int]. *)
Example post_decrement_from_C :
  operator_dec_post E_C = (E_C, E_B) ∧ operator_dec_post E_B = (E_B, E_A).
Proof. split; reflexivity. Qed.

(** Where the successor does not fit the underlying type the store wraps at
    the width of that type: in [enum E8 : unsigned char], [--] at 0 gives
    255 and [++] at 255 gives 0; in [enum EU : unsigned int], [--] at 0
    gives the largest [unsigned int], which converts to the [int] -1. *)
Example narrow_enumerations_wrap :
  Typed.operator_dec Typed.u8 0 = (255, 255)
  ∧ Typed.operator_inc Typed.u8 255 = (0, 0)
  ∧ Typed.operator_dec Typed.u32 0 = (4294967295, 4294967295)
  ∧ Typed.to_int 4294967295 = -1.
Proof. vm_compute. repeat split. Qed.



(** ** The sentinel comparisons, on any underlying type *)

Lemma typed_enum_for_ext (U : Typed.itype) (c1 c2 : Z → bool) :
  (∀ v, c1 v = c2 v) →
  ∀ fuel v, Typed.enum_for U c1 fuel v = Typed.enum_for U c2 fuel v.
Proof.
  intros Hc fuel. induction fuel as [|fuel IH]; intros v; simpl; [done|].
  rewrite Hc, IH. done.
Qed.

Lemma typed_enum_for_more_fuel (U : Typed.itype) (cond : Z → bool)
    (fuel fuel' : nat) :
  (fuel ≤ fuel')%nat →
  ∀ v visited, Typed.enum_for U cond fuel v = Some visited →
               Typed.enum_for U cond fuel' v = Some visited.
Proof.
  revert fuel'. induction fuel as [|fuel IH]; intros fuel' Hle v visited; simpl; [done|].
  destruct fuel' as [|fuel']; [lia|]. simpl.
  destruct (cond v); [|done].
  destruct (Typed.enum_for U cond fuel _) as [l|] eqn:Hl; [|done].
  rewrite (IH fuel' ltac:(lia) _ _ Hl). done.
Qed.

Lemma EU_conforming : Typed.conforming Typed.EU.
Proof.
  split; [vm_compute; split; discriminate|].
  split; [vm_compute; split; discriminate|]. intros H. discriminate H.
Qed.

Lemma E8_conforming : Typed.conforming Typed.E8.
Proof.
  split; [vm_compute; split; discriminate|].
  split; [vm_compute; split; discriminate|]. intros H. discriminate H.
Qed.

Lemma E_conforming : Typed.conforming Typed.E.
Proof.
  split; [vm_compute; split; discriminate|].
  split; [vm_compute; split; discriminate|]. intros _.
  split; [by left|]. split; vm_compute; split; discriminate.
Qed.




(** ** Loops and the sentinel, on any underlying type *)

(** From a value [v] that [int] and the underlying type represent, the loop
    that runs while [v < pxEnumEnd] ends within [COUNT - v + 1] tests,
    having visited [v], ..., [COUNT - 1]. *)
Lemma typed_enum_for_while_lt_END (e : Typed.enumeration) (n : nat) :
  Typed.conforming e →
  Typed.e_COUNT e ≤ CInt.max_signed →
  ∀ v, Typed.in_range (Typed.underlying e) v →
       CInt.min_signed ≤ v ≤ CInt.max_signed →
       Z.to_nat (Typed.e_COUNT e - v) = n →
       Typed.enum_for (Typed.underlying e) (Typed.while_lt_END e) (S n) v
       = Some (seqZ v (Typed.e_COUNT e - v)).
Proof.
  intros He Hmax. pose proof (proj1 (proj2 He)) as HCr.
  induction n as [|n IH]; intros v Hv Hi Hn.
  - simpl. unfold Typed.while_lt_END. rewrite typed_operator_lt_safe by done.
    rewrite (proj2 (Z.ltb_ge _ _)) by lia. by rewrite seqZ_nil by lia.
  - assert (Hlt : v < Typed.e_COUNT e) by lia.
    assert (Hstep : Typed.operator_inc (Typed.underlying e) v = (v + 1, v + 1)).
    { apply typed_operator_inc_safe; [lia | lia |].
      unfold Typed.in_range in *. lia. }
    change (Typed.enum_for (Typed.underlying e) (Typed.while_lt_END e) (S (S n)) v)
      with (if Typed.while_lt_END e v
            then (v ::.) <$> Typed.enum_for (Typed.underlying e) (Typed.while_lt_END e)
                               (S n) (snd (Typed.operator_inc (Typed.underlying e) v))
            else Some []).
    unfold Typed.while_lt_END at 1. rewrite typed_operator_lt_safe by done.
    rewrite (proj2 (Z.ltb_lt _ _) Hlt). rewrite Hstep. cbn [snd].
    rewrite IH; [| unfold Typed.in_range in *; lia | lia | lia].
    rewrite (seqZ_cons v) by lia. simpl.
    do 3 f_equal; lia.
Qed.

(** X5.  On a conforming enumeration whose [COUNT] fits [int], the loop
    conditioned on [v < pxEnumEnd] ends from every start value that [int]
    represents: it visits [start], ..., [COUNT - 1], which is nothing when
    [start] is not below [COUNT].  Where the comparison is unsigned and
    [(int)start] is negative it visits nothing. *)
Theorem lt_END_loop_ends_from_any_int_start (e : Typed.enumeration) (start : Z) :
  Typed.conforming e →
  Typed.e_COUNT e ≤ CInt.max_signed →
  Typed.in_range (Typed.underlying e) start →
  (CInt.min_signed ≤ start ≤ CInt.max_signed →
     (∀ fuel, (Z.to_nat (Typed.e_COUNT e - start) < fuel)%nat →
              Typed.enum_for (Typed.underlying e) (Typed.while_lt_END e) fuel start
              = Some (seqZ start (Typed.e_COUNT e - start)))
     ∧ (Typed.e_COUNT e ≤ start ↔ seqZ start (Typed.e_COUNT e - start) = []))
  ∧ (Typed.is_signed (Typed.compare_type e) = false →
     Typed.to_int start < 0 →
     ∀ fuel, (0 < fuel)%nat →
             Typed.enum_for (Typed.underlying e) (Typed.while_lt_END e) fuel start
             = Some []).
Proof.
  intros He Hmax Hr. split.
  - intros Hi. split.
    + intros fuel Hfuel.
      apply (typed_enum_for_more_fuel _ _ (S (Z.to_nat (Typed.e_COUNT e - start))));
        [lia|].
      by apply typed_enum_for_while_lt_END.
    + split; [intros; by apply seqZ_nil; lia|].
      intros Hnil.
      destruct (decide (Typed.e_COUNT e ≤ start)) as [|Hlt]; [done|].
      rewrite seqZ_cons in Hnil by lia. discriminate.
  - intros Hs Hneg fuel Hfuel. destruct fuel as [|fuel]; [lia|].
    simpl. unfold Typed.while_lt_END at 1. unfold Typed.operator_lt.
    rewrite compare_operand by apply to_int_fits.
    rewrite (conforming_COUNT e He), Hs.
    rewrite (proj2 (Z.leb_gt 0 _) Hneg).
    assert (Hbig : 2 ^ 32 ≤ 2 ^ Typed.bits (Typed.compare_type e)).
    { clear -Hs. destruct e as [U f F C]. destruct U, f; try discriminate Hs;
        typed_arith. }
    pose proof (to_int_fits start) as Hfit.
    rewrite (proj2 (Z.ltb_ge _ _)); [done|].
    unfold CInt.min_signed, CInt.max_signed in *. lia.
Qed.

(** X5 on the three-element enumerations: stored in an [int] and started
    at [B]; of underlying type [unsigned int] and started at the value that
    converts to -1. *)
Lemma lt_END_loop_on_three_members :
  Typed.enum_for Typed.s32 (Typed.while_lt_END Typed.E) 5 1 = Some [1; 2]
  ∧ Typed.enum_for Typed.u32 (Typed.while_lt_END Typed.EU) 5 4294967295 = Some [].
Proof.
  assert (HC : Typed.e_COUNT Typed.E ≤ CInt.max_signed) by (vm_compute; discriminate).
  assert (HCU : Typed.e_COUNT Typed.EU ≤ CInt.max_signed) by (vm_compute; discriminate).
  assert (H1 : Typed.in_range (Typed.underlying Typed.E) 1)
    by (vm_compute; split; discriminate).
  assert (HU : Typed.in_range (Typed.underlying Typed.EU) 4294967295)
    by (vm_compute; split; discriminate).
  destruct (lt_END_loop_ends_from_any_int_start Typed.E 1 E_conforming HC H1)
    as (Hsafe & _).
  destruct (lt_END_loop_ends_from_any_int_start Typed.EU 4294967295 EU_conforming HCU HU)
    as (_ & Hneg).
  split.
  - refine (proj1 (Hsafe _) 5%nat _); [vm_compute; split; discriminate|].
    vm_compute. lia.
  - apply Hneg; [reflexivity | vm_compute; reflexivity | lia].
Defined.



(** On [enum E8 : unsigned char] the same loop goes from 4 to 255, where
    the store wraps to 0, and ends at [COUNT]. *)
Example ne_END_loop_wraps_on_unsigned_char :
  Typed.enum_for Typed.u8 (Typed.while_ne_END Typed.E8) 252 4 = None
  ∧ Typed.enum_for Typed.u8 (Typed.while_ne_END Typed.E8) 300 4
    = Some (seqZ 4 252 ++ [0; 1; 2]).
Proof. vm_compute. split; reflexivity. Qed.

(** X17.  From a start value that [int] represents and that is not above
    [COUNT], [COUNT] fitting [int], the loops conditioned on
    [v < pxEnumEnd], on [v != pxEnumEnd] and on [!(v == pxEnumEnd)] are the
    same loop: with any fuel they visit the same values and end, or not,
    together. *)
Theorem sentinel_loops_agree_below_COUNT (e : Typed.enumeration) (start : Z)
    (fuel : nat) :
  Typed.conforming e →
  Typed.in_range (Typed.underlying e) start →
  CInt.min_signed ≤ start →
  start ≤ Typed.e_COUNT e →
  Typed.e_COUNT e ≤ CInt.max_signed →
  Typed.enum_for (Typed.underlying e) (Typed.while_lt_END e) fuel start
  = Typed.enum_for (Typed.underlying e) (Typed.until_eq_END e) fuel start
  ∧ Typed.enum_for (Typed.underlying e) (Typed.while_ne_END e) fuel start
    = Typed.enum_for (Typed.underlying e) (Typed.until_eq_END e) fuel start.
Proof.
  intros He Hr Hmin Hle Hmax. split; [|by apply typed_enum_for_ext].
  pose proof (proj1 (proj2 He)) as HCr.
  revert start Hr Hmin Hle. induction fuel as [|fuel IH]; intros start Hr Hmin Hle; [done|].
  change (Typed.enum_for (Typed.underlying e) (Typed.while_lt_END e) (S fuel) start)
    with (if Typed.operator_lt e start pxEnumEnd
          then (start ::.) <$> Typed.enum_for (Typed.underlying e) (Typed.while_lt_END e)
                                 fuel (snd (Typed.operator_inc (Typed.underlying e) start))
          else Some []).
  change (Typed.enum_for (Typed.underlying e) (Typed.until_eq_END e) (S fuel) start)
    with (if negb (Typed.operator_eq e start pxEnumEnd)
          then (start ::.) <$> Typed.enum_for (Typed.underlying e) (Typed.until_eq_END e)
                                 fuel (snd (Typed.operator_inc (Typed.underlying e) start))
          else Some []).
  rewrite typed_operator_lt_safe, typed_operator_eq_safe by (done || lia).
  destruct (Z.ltb_spec start (Typed.e_COUNT e)) as [Hlt|Hge].
  - rewrite (proj2 (Z.eqb_neq _ _)) by lia. cbn [negb].
    rewrite typed_operator_inc_safe; [| lia | lia | unfold Typed.in_range in *; lia].
    cbn [snd]. rewrite IH; [done | unfold Typed.in_range in *; lia | lia | lia].
  - rewrite (proj2 (Z.eqb_eq _ _)) by lia. done.
Qed.

(** X17 on the three-element enumeration of underlying type [unsigned char],
    started at [B]. *)
Lemma sentinel_loops_agree_from_B :
  Typed.enum_for Typed.u8 (Typed.while_lt_END Typed.E8) 3 1
  = Typed.enum_for Typed.u8 (Typed.until_eq_END Typed.E8) 3 1
  ∧ Typed.enum_for Typed.u8 (Typed.while_ne_END Typed.E8) 3 1
    = Typed.enum_for Typed.u8 (Typed.until_eq_END Typed.E8) 3 1.
Proof.
  apply (sentinel_loops_agree_below_COUNT Typed.E8 1 3 E8_conforming).
  - vm_compute. split; discriminate.
  - vm_compute. discriminate.
  - vm_compute. discriminate.
  - vm_compute. discriminate.
Defined.

(** ** The debug pair, with the arguments of the use counted *)

Lemma split_arguments_from_nonempty (toks : list token) :
  ∀ depth current, split_arguments_from depth current toks ≠ Some [].
Proof.
  induction toks as [|t toks IH]; intros depth current; simpl.
  - by destruct depth.
  - repeat case_decide; try apply IH.
    + destruct depth; [done | apply IH].
    + destruct depth; [|apply IH].
      by destruct (split_arguments_from 0 [] toks).
Qed.

(** Tokens that make one argument are that argument. *)
Lemma split_arguments_from_one (toks : list token) :
  ∀ depth current a,
    split_arguments_from depth current toks = Some [a] →
    a = reverse current ++ toks.
Proof.
  induction toks as [|t toks IH]; intros depth current a; simpl.
  - destruct depth; [|done]. intros [= <-]. by rewrite (right_id_L [] (++)).
  - assert (Hcons : reverse (t :: current) ++ toks = reverse current ++ t :: toks)
      by (by rewrite reverse_cons, <- (assoc_L (++))).
    repeat case_decide.
    + intros Hrun. apply IH in Hrun. by rewrite <- Hcons.
    + destruct depth; [done|]. intros Hrun. apply IH in Hrun. by rewrite <- Hcons.
    + destruct depth.
      * destruct (split_arguments_from 0 [] toks) as [[|b l]|] eqn:Hs; simpl; try done.
        by apply split_arguments_from_nonempty in Hs.
      * intros Hrun. apply IH in Hrun. by rewrite <- Hcons.
    + intros Hrun. apply IH in Hrun. by rewrite <- Hcons.
Qed.

(** X12.  In every build the debug pair is what the debug flag alone says,
    for a clause none of whose tokens names a macro.  [tryDEBUG] is [try]
    with [PCSX2_DEBUG] defined and [if (true)] without it.  A clause that
    is one macro argument (no comma outside its parentheses) makes
    [catchDEBUG(clause)] into [catch (clause)] with [PCSX2_DEBUG] defined
    and into [if (false)], the clause dropped, without it, whether or not
    [PCSX2_DEVBUILD] is defined.  A clause with a comma outside its
    parentheses, or with unmatched parentheses, is not one argument and the
    use is rejected in every build. *)
Theorem debug_pair_by_build (b : build) (clause : list token) :
  Forall (λ t, header_macros b !! t = None) clause →
  expand (header_macros b) "tryDEBUG" None
  = (if PCSX2_DEBUG b then tok_try else tok_if_true)
  ∧ invoke (header_macros b) "catchDEBUG" clause
    = match split_arguments clause with
      | Some [_] => Some (if PCSX2_DEBUG b then tok_catch clause else tok_if_false)
      | _ => None
      end.
Proof.
  intros _. split.
  - unfold expand. rewrite header_macros_tryDEBUG.
    by destruct (PCSX2_DEBUG b).
  - unfold invoke. rewrite header_macros_catchDEBUG.
    destruct (split_arguments clause) as [[|a [|a' l]]|] eqn:Hs; simpl; [done| |done|done].
    apply split_arguments_from_one in Hs. simpl in Hs. subst a.
    destruct (PCSX2_DEBUG b); vm_compute; reflexivity.
Qed.

(** X12 in the debug build, on a clause that is one argument. *)
Lemma debug_pair_in_debug_build :
  expand (header_macros (Build true false)) "tryDEBUG" None = ["try"]
  ∧ invoke (header_macros (Build true false)) "catchDEBUG" ["std::exception"; "&"; "e"]
    = Some ["catch"; "("; "std::exception"; "&"; "e"; ")"].
Proof.
  apply (debug_pair_by_build (Build true false) ["std::exception"; "&"; "e"]).
  repeat constructor.
Defined.

(** A clause with a comma outside parentheses is two arguments: the use is
    rejected, with the debug flag and without it. *)
Example debug_pair_on_two_arguments :
  split_arguments ["std::pair"; "<"; "int"; ","; "int"; ">"; "&"]
  = Some [["std::pair"; "<"; "int"]; ["int"; ">"; "&"]]
  ∧ invoke (header_macros (Build true false)) "catchDEBUG"
      ["std::pair"; "<"; "int"; ","; "int"; ">"; "&"] = None
  ∧ invoke (header_macros (Build false false)) "catchDEBUG"
      ["std::pair"; "<"; "int"; ","; "int"; ">"; "&"] = None.
Proof. vm_compute. repeat split. Qed.

(** ** Validity and iteration, on any underlying type *)

(** With bounds that fit [int], [EnumIsValid] accepts exactly the values
    whose [int] lies within the bounds, whatever the underlying type:
    where the comparison is unsigned, a negative [(int)id] is not below
    [COUNT] and is rejected as well. *)
Lemma typed_EnumIsValid_within_bounds (e : Typed.enumeration) (v : Z) :
  Typed.conforming e →
  CInt.min_signed ≤ Typed.e_FIRST e →
  Typed.e_COUNT e ≤ CInt.max_signed →
  Typed.EnumIsValid e v = true
  ↔ Typed.e_FIRST e ≤ Typed.to_int v < Typed.e_COUNT e.
Proof.
  intros He Hmin Hmax. unfold Typed.EnumIsValid.
  rewrite compare_operand by apply to_int_fits.
  rewrite conforming_COUNT, conforming_FIRST by done.
  rewrite andb_true_iff, Z.geb_le, Z.ltb_lt.
  pose proof (to_int_fits v) as Hv.
  destruct (Typed.is_signed (Typed.compare_type e)) eqn:Hs; [lia|].
  assert (Hbig : 2 ^ 32 ≤ 2 ^ Typed.bits (Typed.compare_type e)
                 ∧ 0 ≤ Typed.e_FIRST e).
  { clear -Hs He. destruct e as [U f F C]. destruct He as (HF & _ & _).
    destruct U, f; try discriminate Hs; typed_arith. }
  destruct (Z.leb_spec 0 (Typed.to_int v)); [lia|].
  unfold CInt.min_signed, CInt.max_signed in *. lia.
Qed.

(** With bounds [FIRST <= COUNT] that fit [int], the loop from [FIRST]
    until [v == pxEnumEnd] visits [FIRST], ..., [COUNT - 1], whatever the
    underlying type. *)
Lemma typed_enum_for_until_END (e : Typed.enumeration) (n : nat) :
  Typed.conforming e →
  Typed.e_COUNT e ≤ CInt.max_signed →
  ∀ v, Typed.in_range (Typed.underlying e) v →
       CInt.min_signed ≤ v → v ≤ Typed.e_COUNT e →
       Z.to_nat (Typed.e_COUNT e - v) = n →
       Typed.enum_for (Typed.underlying e) (Typed.until_eq_END e) (S n) v
       = Some (seqZ v (Typed.e_COUNT e - v)).
Proof.
  intros He Hmax. pose proof (proj1 (proj2 He)) as HCr.
  induction n as [|n IH]; intros v Hv Hi Hle Hn.
  - simpl. unfold Typed.until_eq_END.
    rewrite typed_operator_eq_safe by (done || lia).
    rewrite (proj2 (Z.eqb_eq _ _)) by lia. by rewrite seqZ_nil by lia.
  - assert (Hlt : v < Typed.e_COUNT e) by lia.
    change (Typed.enum_for (Typed.underlying e) (Typed.until_eq_END e) (S (S n)) v)
      with (if Typed.until_eq_END e v
            then (v ::.) <$> Typed.enum_for (Typed.underlying e) (Typed.until_eq_END e)
                               (S n) (snd (Typed.operator_inc (Typed.underlying e) v))
            else Some []).
    unfold Typed.until_eq_END at 1.
    rewrite typed_operator_eq_safe by (done || lia).
    rewrite (proj2 (Z.eqb_neq _ _)) by lia. cbn [negb].
    rewrite typed_operator_inc_safe; [| lia | lia | unfold Typed.in_range in *; lia].
    cbn [snd].
    rewrite IH; [| unfold Typed.in_range in *; lia | lia | lia | lia].
    rewrite (seqZ_cons v) by lia. simpl.
    do 3 f_equal; lia.
Qed.

(** The three-element enumeration of underlying type [unsigned char]. *)
Example typed_iteration_on_unsigned_char :
  Typed.enum_for Typed.u8 (Typed.until_eq_END Typed.E8) 4 0 = Some [0; 1; 2]
  ∧ Typed.EnumIsValid Typed.E8 <$> [0; 1; 2; 3; 255] = [true; true; true; false; false].
Proof. vm_compute. split; reflexivity. Qed.
